(** * A limit order book with price-time priority

    Shallow embedding of [orderbook.hpp] / [orderbook.cpp]: the data model
    ([Order], [Trade], [OrderBook]), the matching loop [OrderBook::match],
    the public operations [add_limit], [add_market], [cancel], [clear] and
    [total_orders], followed by the properties of the engine.

    Modelling conventions.
    - [uint64_t] identifiers are integers in [0, 2^64); [next_id++] wraps
      around modulo [2^64] ([uint64_succ]).
    - [int] quantities are integers.  On the books the engine builds every
      resting quantity is positive ([book_wf]); the engine compares
      quantities with 0, takes [std::min] of an incoming and a resting one
      and subtracts that minimum from both, so every result lies between 0
      and its operand and no [int] operation overflows.
    - [double] prices are only ever used as ordered keys: they are compared
      with [<=] and [>=] and by the comparators of the two [std::map]s, and
      no arithmetic is done on them.  They are modelled as canonical
      rationals [Qc] (every finite double is one; [-0.0] and [0.0], which
      compare equal, are the one rational 0).  NaN is left out: a
      [std::map] whose comparator is not a strict weak ordering has no
      defined behaviour.
    - The [ts] fields of [Order] and [Trade] are wall-clock stamps that no
      operation reads; they are not part of the model. *)

From Stdlib Require Import ZArith QArith Qcanon Lia.
From stdpp Require Import gmap list numbers option sorting.
From Equations Require Import Equations.

Local Open Scope Z_scope.

(** ** Machine integers *)

Definition UINT64_MOD : Z := 2 ^ 64.

(** The value of a [uint64_t] after [++]. *)
Definition uint64_succ (x : Z) : Z := (x + 1) mod UINT64_MOD.

(** ** Data model *)

Module Order.
Record t := mk { id : Z; price : Qc; qty : Z }.

(** [resting.qty -= trade_qty] *)
Definition sub_qty (o : t) (d : Z) : t :=
  {| id := id o; price := price o; qty := qty o - d |}.

(** [inc.qty] after the matching loop has run. *)
Definition with_qty (o : t) (q : Z) : t :=
  {| id := id o; price := price o; qty := q |}.
End Order.

Module Trade.
Record t := mk { buyer_id : Z; seller_id : Z; price : Qc; qty : Z }.
End Trade.

(** A price ladder: the entries of a [std::map<double, std::deque<Order>>]
    in iteration order, [begin()] first. *)
Abbreviation ladder := (list (Qc * list Order.t)).

(** The order index: [std::unordered_map<uint64_t, std::pair<double, bool>>]. *)
Abbreviation index := (gmap Z (Qc * bool)).

Record OrderBook := mkOrderBook {
  bids : ladder;          (* price -> [orders], descending *)
  asks : ladder;          (* price -> [orders], ascending *)
  order_index : index;    (* id -> (price, is_bid) *)
  trades : list Trade.t;
  next_id : Z
}.

(** A freshly constructed [OrderBook]. *)
Definition empty_book : OrderBook :=
  {| bids := []; asks := []; order_index := ∅; trades := []; next_id := 1 |}.

(** ** The ordered maps *)

(** [std::less<double>], the comparator of [asks]. *)
Definition less (a b : Qc) : bool := bool_decide (a < b)%Qc.

(** [std::greater<>], the comparator of [bids]. *)
Definition greater (a b : Qc) : bool := bool_decide (b < a)%Qc.

(** Key equivalence of an ordered map: neither key sorts before the other. *)
Definition key_equiv (comp : Qc → Qc → bool) (a b : Qc) : bool :=
  negb (comp a b) && negb (comp b a).

(** [m.find(k)]: the queue stored under a key equivalent to [k]. *)
Fixpoint ladder_find (comp : Qc → Qc → bool) (k : Qc) (m : ladder)
  : option (list Order.t) :=
  match m with
  | [] => None
  | (k', level) :: rest =>
      if key_equiv comp k' k then Some level else ladder_find comp k rest
  end.

(** [m[k].push_back(o)]: [operator[]] creates an empty queue under [k], at
    its place in the order, when no equivalent key is present. *)
Fixpoint ladder_push (comp : Qc → Qc → bool) (k : Qc) (o : Order.t) (m : ladder)
  : ladder :=
  match m with
  | [] => [(k, [o])]
  | (k', level) :: rest =>
      if comp k k' then (k, [o]) :: (k', level) :: rest
      else if comp k' k then (k', level) :: ladder_push comp k o rest
      else (k', level ++ [o]) :: rest
  end.

(** The entry found under [k] after its queue has been changed in place to
    [level'], followed by [if (level.empty()) m.erase(level_it)]. *)
Fixpoint ladder_store (comp : Qc → Qc → bool) (k : Qc) (level' : list Order.t)
    (m : ladder) : ladder :=
  match m with
  | [] => []
  | (k', level) :: rest =>
      if key_equiv comp k' k then
        match level' with
        | [] => rest
        | _ :: _ => (k', level') :: rest
        end
      else (k', level) :: ladder_store comp k level' rest
  end.

(** ** Matching *)

(** The price test of the outer loop: [it->first <= inc.price] for an
    incoming bid, [it->first >= inc.price] for an incoming ask. *)
Definition crosses (is_bid : bool) (level_price inc_price : Qc) : bool :=
  if is_bid then bool_decide (level_price ≤ inc_price)%Qc
  else bool_decide (inc_price ≤ level_price)%Qc.

(** The trade record of [trades.emplace_back]: [(inc.id, resting.id, ...)]
    in the bid branch, [(resting.id, inc.id, ...)] in the ask branch. *)
Definition make_trade (is_bid : bool) (inc_id resting_id : Z)
    (level_price : Qc) (trade_qty : Z) : Trade.t :=
  if is_bid then Trade.mk inc_id resting_id level_price trade_qty
  else Trade.mk resting_id inc_id level_price trade_qty.

(** Termination measure of the inner loop: an iteration either pops the
    front of the queue or uses up the incoming quantity. *)
Definition level_measure (inc_qty : Z) (level : list Order.t) : nat :=
  (2 * length level + (if decide (0 < inc_qty)%Z then 1 else 0))%nat.

(** The inner loop [while (inc.qty > 0 && !level.empty())] on one price
    level.  Returns the incoming quantity left, the queue, the order index
    and the trades appended, in order. *)
Equations? match_level (is_bid : bool) (inc_id : Z) (level_price : Qc)
    (inc_qty : Z) (level : list Order.t) (idx : index)
  : Z * list Order.t * index * list Trade.t
  by wf (level_measure inc_qty level) lt :=
  match_level is_bid inc_id level_price inc_qty [] idx :=
    (inc_qty, [], idx, []);
  match_level is_bid inc_id level_price inc_qty (resting :: rest) idx
    with decide (0 < inc_qty) => {
    | right _ := (inc_qty, resting :: rest, idx, []);
    | left Hinc
        with decide (Order.qty resting
                     - Z.min inc_qty (Order.qty resting) = 0) => {
      | left _ :=
          let trade_qty := Z.min inc_qty (Order.qty resting) in
          let '(q, level', idx', ts) :=
            match_level is_bid inc_id level_price (inc_qty - trade_qty)
              rest (delete (Order.id resting) idx) in
          (q, level', idx',
           make_trade is_bid inc_id (Order.id resting) level_price trade_qty
             :: ts);
      | right Hrest :=
          let trade_qty := Z.min inc_qty (Order.qty resting) in
          let '(q, level', idx', ts) :=
            match_level is_bid inc_id level_price (inc_qty - trade_qty)
              (Order.sub_qty resting trade_qty :: rest) idx in
          (q, level', idx',
           make_trade is_bid inc_id (Order.id resting) level_price trade_qty
             :: ts) } }.
Proof.
  - unfold level_measure. cbn [length].
    repeat case_decide; lia.
  - unfold level_measure. cbn [length]. subst trade_qty.
    repeat case_decide; lia.
Qed.

(** The outer loop over the opposing ladder, from [book.begin()]: a level
    that the inner loop emptied is erased, otherwise the iterator moves on. *)
Fixpoint match_book (is_bid : bool) (inc_id : Z) (inc_price : Qc)
    (inc_qty : Z) (book : ladder) (idx : index)
  : Z * ladder * index * list Trade.t :=
  match book with
  | [] => (inc_qty, [], idx, [])
  | (level_price, level) :: rest =>
      if bool_decide (0 < inc_qty) && crosses is_bid level_price inc_price then
        let '(q1, level1, idx1, ts1) :=
          match_level is_bid inc_id level_price inc_qty level idx in
        let '(q2, rest2, idx2, ts2) :=
          match_book is_bid inc_id inc_price q1 rest idx1 in
        (q2,
         match level1 with
         | [] => rest2
         | _ :: _ => (level_price, level1) :: rest2
         end,
         idx2, ts1 ++ ts2)
      else (inc_qty, (level_price, level) :: rest, idx, [])
  end.

(** [OrderBook::match]: an incoming bid matches against [asks], an incoming
    ask against [bids].  Returns [inc] as the loop left it. *)
Definition match_ (inc : Order.t) (is_bid : bool) (ob : OrderBook)
  : Order.t * OrderBook :=
  if is_bid then
    let '(q, asks', idx', ts) :=
      match_book true (Order.id inc) (Order.price inc) (Order.qty inc)
        (asks ob) (order_index ob) in
    (Order.with_qty inc q,
     {| bids := bids ob; asks := asks'; order_index := idx';
        trades := trades ob ++ ts; next_id := next_id ob |})
  else
    let '(q, bids', idx', ts) :=
      match_book false (Order.id inc) (Order.price inc) (Order.qty inc)
        (bids ob) (order_index ob) in
    (Order.with_qty inc q,
     {| bids := bids'; asks := asks ob; order_index := idx';
        trades := trades ob ++ ts; next_id := next_id ob |}).

(** ** Operations *)

(** The book after [Order inc(next_id++, ...)]. *)
Definition bump_next_id (ob : OrderBook) : OrderBook :=
  {| bids := bids ob; asks := asks ob; order_index := order_index ob;
     trades := trades ob; next_id := uint64_succ (next_id ob) |}.

(** [OrderBook::add_limit] *)
Definition add_limit (price : Qc) (qty : Z) (is_bid : bool) (ob : OrderBook)
  : Z * OrderBook :=
  if bool_decide (qty ≤ 0) then (0, ob)
  else
    let inc := Order.mk (next_id ob) price qty in
    let order_id := Order.id inc in
    let '(inc, ob) := match_ inc is_bid (bump_next_id ob) in
    if bool_decide (0 < Order.qty inc) then
      (order_id,
       {| bids := if is_bid
                  then ladder_push greater (Order.price inc) inc (bids ob)
                  else bids ob;
          asks := if is_bid
                  then asks ob
                  else ladder_push less (Order.price inc) inc (asks ob);
          order_index := <[order_id := (price, is_bid)]> (order_index ob);
          trades := trades ob; next_id := next_id ob |})
    else (order_id, ob).

(** The synthetic prices of a market order: [is_bid ? 1e9 : 0.0]. *)
Definition market_price (is_bid : bool) : Qc :=
  if is_bid then Qc_of_Z 1000000000 else Qc_of_Z 0.

(** [OrderBook::add_market] *)
Definition add_market (qty : Z) (is_bid : bool) (ob : OrderBook)
  : Z * OrderBook :=
  if bool_decide (qty ≤ 0) then (0, ob)
  else
    let inc := Order.mk (next_id ob) (market_price is_bid) qty in
    let '(inc, ob) := match_ inc is_bid (bump_next_id ob) in
    (Order.id inc, ob).

(** The [for] loop of [cancel] over one queue: the position of the first
    order whose id is [id], if the loop finds one. *)
Fixpoint level_scan (id : Z) (level : list Order.t) : option nat :=
  match level with
  | [] => None
  | o :: rest =>
      if bool_decide (Order.id o = id) then Some 0%nat
      else S <$> level_scan id rest
  end.

(** The book after [order_index.erase(it)]. *)
Definition erase_index (id : Z) (ob : OrderBook) : OrderBook :=
  {| bids := bids ob; asks := asks ob;
     order_index := delete id (order_index ob);
     trades := trades ob; next_id := next_id ob |}.

(** [OrderBook::cancel] *)
Definition cancel (id : Z) (ob : OrderBook) : bool * OrderBook :=
  match order_index ob !! id with
  | None => (false, ob)
  | Some (price, is_bid) =>
      if is_bid : bool then
        match ladder_find greater price (bids ob) with
        | Some level =>
            match level_scan id level with
            | Some i =>
                (true,
                 {| bids := ladder_store greater price (delete i level) (bids ob);
                    asks := asks ob;
                    order_index := delete id (order_index ob);
                    trades := trades ob; next_id := next_id ob |})
            | None => (false, erase_index id ob)
            end
        | None => (false, erase_index id ob)
        end
      else
        match ladder_find less price (asks ob) with
        | Some level =>
            match level_scan id level with
            | Some i =>
                (true,
                 {| bids := bids ob;
                    asks := ladder_store less price (delete i level) (asks ob);
                    order_index := delete id (order_index ob);
                    trades := trades ob; next_id := next_id ob |})
            | None => (false, erase_index id ob)
            end
        | None => (false, erase_index id ob)
        end
  end.

(** [OrderBook::clear]: [next_id] is left as it is. *)
Definition clear (ob : OrderBook) : OrderBook :=
  {| bids := []; asks := []; order_index := ∅; trades := [];
     next_id := next_id ob |}.

(** [OrderBook::total_orders] *)
Definition total_orders (ob : OrderBook) : nat := size (order_index ob).

(** [bids.begin()->first] and [asks.begin()->first], as [print_top] reads
    them. *)
Definition best_bid (ob : OrderBook) : option Qc := fst <$> head (bids ob).
Definition best_ask (ob : OrderBook) : option Qc := fst <$> head (asks ob).

(** ** Runs of the engine *)

(** One call of the public interface. *)
Inductive op :=
| AddLimit (price : Qc) (qty : Z) (is_bid : bool)
| AddMarket (qty : Z) (is_bid : bool)
| Cancel (id : Z)
| Clear.

Definition step (o : op) (ob : OrderBook) : OrderBook :=
  match o with
  | AddLimit price qty is_bid => (add_limit price qty is_bid ob).2
  | AddMarket qty is_bid => (add_market qty is_bid ob).2
  | Cancel id => (cancel id ob).2
  | Clear => clear ob
  end.

(** The calls of [ops] made one after the other, first to last. *)
Fixpoint run (ops : list op) (ob : OrderBook) : OrderBook :=
  match ops with
  | [] => ob
  | o :: ops => run ops (step o ob)
  end.

(** The states a book constructed empty can be brought to. *)
Definition reachable (ob : OrderBook) : Prop :=
  ∃ ops, ob = run ops empty_book.

(** ** Both sides at once *)

(** The comparator and the ladder of a side. *)
Definition comp_of (is_bid : bool) : Qc → Qc → bool :=
  if is_bid then greater else less.
Definition ladder_of (is_bid : bool) (ob : OrderBook) : ladder :=
  if is_bid then bids ob else asks ob.

(** The book with the ladder of one side replaced. *)
Definition set_ladder (is_bid : bool) (m : ladder) (ob : OrderBook)
  : OrderBook :=
  {| bids := if is_bid then m else bids ob;
     asks := if is_bid then asks ob else m;
     order_index := order_index ob;
     trades := trades ob; next_id := next_id ob |}.

(** The order that [cancel id] erases from its queue, when it finds one. *)
Definition cancel_target (id : Z) (ob : OrderBook) : option Order.t :=
  match order_index ob !! id with
  | None => None
  | Some (price, is_bid) =>
      match ladder_find (comp_of is_bid) price (ladder_of is_bid ob) with
      | None => None
      | Some level =>
          match level_scan id level with
          | None => None
          | Some i => level !! i
          end
      end
  end.

(** The number of orders the [for] loop of [cancel id] looks at. *)
Definition cancel_scan_steps (id : Z) (ob : OrderBook) : nat :=
  match order_index ob !! id with
  | None => 0
  | Some (price, is_bid) =>
      match ladder_find (comp_of is_bid) price (ladder_of is_bid ob) with
      | None => 0
      | Some level =>
          match level_scan id level with
          | None => length level
          | Some i => S i
          end
      end
  end.

(** ** Quantities and identifiers at rest *)

Definition sum_with {A : Type} (f : A → Z) (l : list A) : Z :=
  foldr (λ x acc, f x + acc) 0 l.

(** Total quantity of a queue, of a ladder, of the whole book. *)
Definition level_qty (level : list Order.t) : Z := sum_with Order.qty level.
Definition ladder_qty (m : ladder) : Z := sum_with (λ e, level_qty e.2) m.
Definition resting_qty (ob : OrderBook) : Z :=
  ladder_qty (bids ob) + ladder_qty (asks ob).

(** Total quantity of a list of trades. *)
Definition trades_qty (ts : list Trade.t) : Z := sum_with Trade.qty ts.

Global Arguments level_qty : simpl never.
Global Arguments ladder_qty : simpl never.
Global Arguments trades_qty : simpl never.

(** All the orders of a ladder, best price first, oldest first in a level. *)
Definition ladder_orders (m : ladder) : list Order.t := m ≫= snd.

(** [order_index.erase(resting.id)] for each order of [filled] in turn. *)
Definition erase_ids (filled : list Order.t) (idx : index) : index :=
  foldl (λ i o, delete (Order.id o) i) idx filled.

(** The trade that fills the resting order [o] entirely. *)
Definition fill_trade (is_bid : bool) (inc_id : Z) (level_price : Qc)
    (o : Order.t) : Trade.t :=
  make_trade is_bid inc_id (Order.id o) level_price (Order.qty o).

(** The trades that fill every order of the levels [swept], level by level. *)
Definition sweep_trades (is_bid : bool) (inc_id : Z) (swept : ladder)
  : list Trade.t :=
  swept ≫= (λ e, fill_trade is_bid inc_id e.1 <$> e.2).

(** What the inner loop can have done to a queue: it filled a front part
    [filled] of it entirely, in order, and then either stopped with the rest
    untouched, or traded the last of the incoming quantity against the next
    order [r], which stays at the front. *)
Inductive level_outcome (is_bid : bool) (inc_id : Z) (lp : Qc) (q : Z)
    (level : list Order.t) (idx : index)
  : Z * list Order.t * index * list Trade.t → Prop :=
| level_swept filled rest_ :
    level = filled ++ rest_ →
    (q - level_qty filled ≤ 0 ∨ rest_ = []) →
    (0 ≤ q → 0 ≤ q - level_qty filled) →
    level_outcome is_bid inc_id lp q level idx
      (q - level_qty filled, rest_, erase_ids filled idx,
       fill_trade is_bid inc_id lp <$> filled)
| level_partial filled r rest_ :
    level = filled ++ r :: rest_ →
    0 < q - level_qty filled < Order.qty r →
    level_outcome is_bid inc_id lp q level idx
      (0, Order.sub_qty r (q - level_qty filled) :: rest_,
       erase_ids filled idx,
       (fill_trade is_bid inc_id lp <$> filled)
         ++ [make_trade is_bid inc_id (Order.id r) lp (q - level_qty filled)]).

(** What the outer loop can have done to a ladder: it swept a front part
    [swept] of crossing levels entirely and erased them, and then either
    stopped in front of the rest, or stopped inside the next level, which
    the inner loop left non-empty. *)
Inductive book_outcome (is_bid : bool) (inc_id : Z) (p : Qc) (q : Z)
    (book : ladder) (idx : index)
  : Z * ladder * index * list Trade.t → Prop :=
| book_swept swept rest_ :
    book = swept ++ rest_ →
    Forall (λ e, crosses is_bid e.1 p = true) swept →
    (q - ladder_qty swept ≤ 0 ∨ rest_ = [] ∨
     ∃ e rest', rest_ = e :: rest' ∧ crosses is_bid e.1 p = false) →
    (0 ≤ q → 0 ≤ q - ladder_qty swept) →
    book_outcome is_bid inc_id p q book idx
      (q - ladder_qty swept, rest_, erase_ids (ladder_orders swept) idx,
       sweep_trades is_bid inc_id swept)
| book_stopped swept lp level rest_ q1 level1 idx1 ts1 :
    book = swept ++ (lp, level) :: rest_ →
    Forall (λ e, crosses is_bid e.1 p = true) swept →
    crosses is_bid lp p = true →
    0 < q - ladder_qty swept →
    level_outcome is_bid inc_id lp (q - ladder_qty swept) level
      (erase_ids (ladder_orders swept) idx) (q1, level1, idx1, ts1) →
    level1 ≠ [] →
    q1 = 0 →
    book_outcome is_bid inc_id p q book idx
      (q1, (lp, level1) :: rest_, idx1,
       sweep_trades is_bid inc_id swept ++ ts1).

(** What a trade record of [match] has to say about the incoming order
    [inc] and the ladder [book] it was matched against: it was made with an
    order [r] resting in a level of [book] whose price the incoming order
    crosses, its price is that level's price, and the buyer is whichever
    of the two is on the buy side. *)
Definition trade_of (is_bid : bool) (inc : Order.t) (book : ladder)
    (t : Trade.t) : Prop :=
  ∃ lp level r,
    (lp, level) ∈ book ∧ r ∈ level ∧
    crosses is_bid lp (Order.price inc) = true ∧
    Trade.price t = lp ∧
    Trade.buyer_id t = (if is_bid then Order.id inc else Order.id r) ∧
    Trade.seller_id t = (if is_bid then Order.id r else Order.id inc).

(** ** Identifiers *)

(** The id a call returns, for the calls that return one. *)
Definition returned_id (o : op) (ob : OrderBook) : option Z :=
  match o with
  | AddLimit price qty is_bid => Some (add_limit price qty is_bid ob).1
  | AddMarket qty is_bid => Some (add_market qty is_bid ob).1
  | Cancel _ | Clear => None
  end.

(** The ids returned in the course of a run, first to last. *)
Fixpoint returned_ids (ops : list op) (ob : OrderBook) : list Z :=
  match ops with
  | [] => []
  | o :: ops => option_list (returned_id o ob) ++ returned_ids ops (step o ob)
  end.

(** The ids of the orders of a ladder, and of both ladders. *)
Definition ladder_ids (m : ladder) : list Z := Order.id <$> ladder_orders m.
Definition resting_ids (ob : OrderBook) : list Z :=
  ladder_ids (bids ob) ++ ladder_ids (asks ob).

(** [id] is in use in the book: it is a key of the order index or the id of
    a resting order. *)
Definition id_in_use (id : Z) (ob : OrderBook) : Prop :=
  is_Some (order_index ob !! id) ∨ id ∈ resting_ids ob.


(** ** Well-formed books *)

(** [a] comes before [b] in the ladder of a side: higher first for bids,
    lower first for asks. *)
Definition sorts_before (is_bid : bool) (a b : Qc) : Prop :=
  if is_bid then (b < a)%Qc else (a < b)%Qc.

(** A queue of the level at price [lp] as the engine keeps it: it holds
    orders of positive quantity whose price is [lp], and is not empty. *)
Definition level_wf (lp : Qc) (level : list Order.t) : Prop :=
  level ≠ [] ∧ Forall (λ o, 0 < Order.qty o ∧ Order.price o = lp) level.

(** A ladder as the engine keeps it: keys strictly in the order of its
    side, every level well formed. *)
Definition ladder_wf (is_bid : bool) (m : ladder) : Prop :=
  StronglySorted (sorts_before is_bid) m.*1 ∧
  Forall (λ e, level_wf e.1 e.2) m.

(** The invariant of the engine: both ladders are well formed, every entry
    of the order index points at a queue that holds an order of that id, and
    every bid price is below every ask price. *)
Record book_wf (ob : OrderBook) : Prop := mk_book_wf {
  wf_bids : ladder_wf true (bids ob);
  wf_asks : ladder_wf false (asks ob);
  wf_index : ∀ id p is_bid,
    order_index ob !! id = Some (p, is_bid) →
    ∃ level, (p, level) ∈ ladder_of is_bid ob ∧ id ∈ Order.id <$> level;
  wf_spread : ∀ pb pa,
    pb ∈ (bids ob).*1 → pa ∈ (asks ob).*1 → (pb < pa)%Qc
}.

(** ** Accounting of quantities over a run *)

Record ledger := mk_ledger {
  submitted : Z;   (* quantity of the submissions that were accepted *)
  dropped : Z;     (* quantity market orders were left with after matching *)
  cancelled : Z    (* quantity of the orders erased by [cancel] *)
}.

Definition ledger_add (a b : ledger) : ledger :=
  {| submitted := submitted a + submitted b;
     dropped := dropped a + dropped b;
     cancelled := cancelled a + cancelled b |}.

(** What the call [o], made on the book [ob], adds to the ledger. *)
Definition account (o : op) (ob : OrderBook) : ledger :=
  match o with
  | AddLimit price qty is_bid =>
      if bool_decide (qty ≤ 0) then mk_ledger 0 0 0 else mk_ledger qty 0 0
  | AddMarket qty is_bid =>
      if bool_decide (qty ≤ 0) then mk_ledger 0 0 0
      else
        let inc := Order.mk (next_id ob) (market_price is_bid) qty in
        mk_ledger qty (Order.qty (match_ inc is_bid (bump_next_id ob)).1) 0
  | Cancel id =>
      if (cancel id ob).1
      then mk_ledger 0 0 (from_option Order.qty 0 (cancel_target id ob))
      else mk_ledger 0 0 0
  | Clear => mk_ledger 0 0 0
  end.

Fixpoint run_ledger (ops : list op) (ob : OrderBook) : ledger :=
  match ops with
  | [] => mk_ledger 0 0 0
  | o :: ops => ledger_add (account o ob) (run_ledger ops (step o ob))
  end.

(** ** Sample runs *)

(** Prices written as fractions: [px 201 2] is 100.5. *)
Definition px (n : Z) (d : positive) : Qc := Q2Qc (n # d).

(** An ask at 100.5 for 50, then a bid at 100.5 for 30 that trades with it
    (the first scenario of the test suite). *)
Definition basic_matching : list op :=
  [AddLimit (px 201 2) 50 false; AddLimit (px 201 2) 30 true].

(** A run with a partial fill, a market order that is left with a residual,
    a resting bid and its cancellation. *)
Definition mixed_run : list op :=
  [AddLimit (px 201 2) 50 false; AddLimit (px 201 2) 30 true;
   AddMarket 40 true; AddLimit (px 99 1) 10 true; Cancel 4].

(** A bid at 100 and an ask at 101, which do not cross. *)
Definition no_matching : list op :=
  [AddLimit (px 100 1) 50 true; AddLimit (px 101 1) 50 false].

(** Three asks at the same price. *)
Definition three_asks : list op :=
  [AddLimit (px 100 1) 50 false; AddLimit (px 100 1) 50 false;
   AddLimit (px 100 1) 50 false].

(** An ask above the synthetic price of a market buy (2e9 > 1e9), and a
    bid below the synthetic price of a market sell (-1 < 0). *)
Definition far_ask : list op := [AddLimit (px 2000000000 1) 10 false].
Definition far_bid : list op := [AddLimit (px (-1) 1) 10 true].

(** As many market orders as it takes to bring [next_id] from 1 back to 0:
    2^64 - 1 of them. *)
Definition wrap_run : list op :=
  repeat (AddMarket 1 true) (N.to_nat 18446744073709551615).

(** A book that is empty but for its id counter. *)
Definition idle_book (x : Z) : OrderBook :=
  {| bids := []; asks := []; order_index := ∅; trades := []; next_id := x |}.

(** ** Reporting *)

(** The [for] loop of [print_top] over the queue of a top level:
    [total_qty] starts at 0 and the quantity of each order is added to it.
    ([total_qty] is an [int]; the sum below is the value it holds as long as
    the total of the level fits one.) *)
Definition top_qty (top : list Order.t) : Z :=
  foldl (λ total_qty order, total_qty + Order.qty order) 0 top.

(** What [print_top] writes for one side: nothing when the ladder is empty,
    else the first key of the ladder and the total of its queue. *)
Definition top_line (m : ladder) : option (Qc * Z) :=
  match m with
  | [] => None
  | (p, top) :: _ => Some (p, top_qty top)
  end.

(** [OrderBook::print_top]: the "Best Bid" and the "Best Ask" line, each as
    the price and the quantity it shows. *)
Definition print_top (ob : OrderBook) : option (Qc * Z) * option (Qc * Z) :=
  (top_line (bids ob), top_line (asks ob)).

(** [OrderBook::get_trades] *)
Definition get_trades (ob : OrderBook) : list Trade.t := trades ob.

(** The quantity resting in [book] at prices the incoming price crosses. *)
Definition crossing_qty (is_bid : bool) (price : Qc) (book : ladder) : Z :=
  ladder_qty (filter (λ e, crosses is_bid e.1 price = true) book).

(** [a] is at least as good a price as [b] for an incoming order to trade
    at: no higher for a buyer, no lower for a seller. *)
Definition no_worse (is_bid : bool) (a b : Qc) : Prop :=
  if is_bid then (a ≤ b)%Qc else (b ≤ a)%Qc.

(** ** Sums *)

Lemma sum_with_app {A} (f : A → Z) l1 l2 :
  sum_with f (l1 ++ l2) = sum_with f l1 + sum_with f l2.
Proof.
  unfold sum_with. induction l1 as [|x l1 IH]; cbn; [done|]. rewrite IH. lia.
Qed.

Lemma level_qty_nil : level_qty [] = 0.
Proof. done. Qed.

Lemma level_qty_cons o level : level_qty (o :: level) = Order.qty o + level_qty level.
Proof. done. Qed.

Lemma level_qty_app l1 l2 : level_qty (l1 ++ l2) = level_qty l1 + level_qty l2.
Proof. apply sum_with_app. Qed.

Lemma trades_qty_app l1 l2 : trades_qty (l1 ++ l2) = trades_qty l1 + trades_qty l2.
Proof. apply sum_with_app. Qed.

Lemma ladder_qty_cons lp level m :
  ladder_qty ((lp, level) :: m) = level_qty level + ladder_qty m.
Proof. done. Qed.

Lemma ladder_qty_app m1 m2 : ladder_qty (m1 ++ m2) = ladder_qty m1 + ladder_qty m2.
Proof. apply sum_with_app. Qed.

Lemma level_qty_singleton o : level_qty [o] = Order.qty o.
Proof. unfold level_qty, sum_with. cbn. lia. Qed.

Lemma ladder_qty_nil : ladder_qty [] = 0.
Proof. done. Qed.

(** ** Comparators *)

Lemma less_true a b : less a b = true ↔ (a < b)%Qc.
Proof. unfold less. apply bool_decide_eq_true. Qed.

Lemma greater_true a b : greater a b = true ↔ (b < a)%Qc.
Proof. unfold greater. apply bool_decide_eq_true. Qed.

Lemma Qc_lt_irrefl (a : Qc) : ¬ (a < a)%Qc.
Proof. intros H. by apply Qclt_not_eq in H. Qed.

Lemma Qc_trichotomy (a b : Qc) : (a < b)%Qc ∨ a = b ∨ (b < a)%Qc.
Proof.
  destruct (Qclt_le_dec a b) as [?|Hle]; [by left|].
  destruct (Qclt_le_dec b a) as [?|Hle']; [by right; right|].
  right; left. by apply Qcle_antisym.
Qed.

Lemma key_equiv_less a b : key_equiv less a b = true ↔ a = b.
Proof.
  unfold key_equiv, less.
  rewrite andb_true_iff, !negb_true_iff, !bool_decide_eq_false.
  split.
  - intros [H1 H2]. destruct (Qc_trichotomy a b) as [?|[?|?]]; done.
  - intros ->. split; apply Qc_lt_irrefl.
Qed.

Lemma key_equiv_greater a b : key_equiv greater a b = true ↔ a = b.
Proof.
  unfold key_equiv, greater.
  rewrite andb_true_iff, !negb_true_iff, !bool_decide_eq_false.
  split.
  - intros [H1 H2]. destruct (Qc_trichotomy a b) as [?|[?|?]]; done.
  - intros ->. split; apply Qc_lt_irrefl.
Qed.

Lemma comp_of_true is_bid a b :
  comp_of is_bid a b = true ↔ sorts_before is_bid a b.
Proof. destruct is_bid; [apply greater_true|apply less_true]. Qed.

Lemma comp_of_false is_bid a b :
  comp_of is_bid a b = false ↔ ¬ sorts_before is_bid a b.
Proof. rewrite <-comp_of_true. by destruct (comp_of is_bid a b). Qed.

Lemma key_equiv_comp_of is_bid a b :
  key_equiv (comp_of is_bid) a b = true ↔ a = b.
Proof. destruct is_bid; [apply key_equiv_greater|apply key_equiv_less]. Qed.

Lemma key_equiv_refl is_bid a : key_equiv (comp_of is_bid) a a = true.
Proof. by apply key_equiv_comp_of. Qed.

Lemma key_equiv_ne is_bid a b :
  a ≠ b → key_equiv (comp_of is_bid) a b = false.
Proof.
  intros Hne. destruct (key_equiv _ a b) eqn:E; [|done].
  by apply key_equiv_comp_of in E.
Qed.

Lemma sorts_before_irrefl is_bid a : ¬ sorts_before is_bid a a.
Proof. destruct is_bid; apply Qc_lt_irrefl. Qed.

Lemma sorts_before_trans is_bid a b c :
  sorts_before is_bid a b → sorts_before is_bid b c → sorts_before is_bid a c.
Proof.
  destruct is_bid; cbn; intros H1 H2; eapply Qclt_trans; eauto.
Qed.

Lemma sorts_before_total is_bid a b :
  sorts_before is_bid a b ∨ a = b ∨ sorts_before is_bid b a.
Proof.
  destruct is_bid; cbn; destruct (Qc_trichotomy a b) as [?|[?|?]]; auto.
Qed.

(** The outer loop's price test fails at a level exactly when the incoming
    price comes strictly before the level's price in the opposing ladder. *)
Lemma crosses_false is_bid lp p :
  crosses is_bid lp p = false ↔ sorts_before (negb is_bid) p lp.
Proof.
  unfold crosses. destruct is_bid; cbn; rewrite bool_decide_eq_false;
    split; intros H; first [by apply Qcnot_le_lt|by apply Qclt_not_le].
Qed.

Lemma crosses_true is_bid lp p :
  crosses is_bid lp p = true ↔ ¬ sorts_before (negb is_bid) p lp.
Proof. rewrite <-crosses_false. by destruct (crosses is_bid lp p). Qed.

(** ** Lookup in a ladder *)

Lemma ladder_find_elem is_bid k m level :
  ladder_find (comp_of is_bid) k m = Some level → (k, level) ∈ m.
Proof.
  induction m as [|[k' l'] m IH]; cbn; [done|].
  destruct (key_equiv _ k' k) eqn:E.
  - apply key_equiv_comp_of in E as ->. intros [= ->]. apply list_elem_of_here.
  - intros H. apply list_elem_of_further. auto.
Qed.

Lemma sorted_keys_NoDup is_bid (ks : list Qc) :
  StronglySorted (sorts_before is_bid) ks → NoDup ks.
Proof.
  induction 1 as [|k ks Hs IH Hall]; constructor; [|done].
  intros Hin. rewrite Forall_forall in Hall.
  by apply (sorts_before_irrefl is_bid k), Hall.
Qed.

Lemma ladder_find_unique is_bid k m level :
  NoDup m.*1 → (k, level) ∈ m →
  ladder_find (comp_of is_bid) k m = Some level.
Proof.
  induction m as [|[k' l'] m IH]; cbn; intros Hnd Hin.
  - by apply elem_of_nil in Hin.
  - apply NoDup_cons in Hnd as [Hk' Hnd].
    apply elem_of_cons in Hin as [[= <- <-]|Hin].
    + by rewrite key_equiv_refl.
    + rewrite key_equiv_ne; [by apply IH|].
      intros ->. apply Hk'. apply list_elem_of_fmap. by exists (k, level).
Qed.

Lemma ladder_find_wf is_bid k m level :
  ladder_wf is_bid m → (k, level) ∈ m →
  ladder_find (comp_of is_bid) k m = Some level.
Proof.
  intros [Hs _] Hin. apply ladder_find_unique; [|done].
  by apply (sorted_keys_NoDup is_bid).
Qed.

(** ** Resting an order: [m[k].push_back(o)] *)

Lemma ladder_push_keys is_bid k o m x :
  x ∈ (ladder_push (comp_of is_bid) k o m).*1 ↔ x = k ∨ x ∈ m.*1.
Proof.
  induction m as [|[k' l'] m IH]; cbn.
  - rewrite list_elem_of_singleton, elem_of_nil. tauto.
  - destruct (comp_of is_bid k k') eqn:E1; [cbn; rewrite !elem_of_cons; tauto|].
    destruct (comp_of is_bid k' k) eqn:E2; cbn.
    + rewrite !elem_of_cons, IH. tauto.
    + assert (k' = k) as ->.
      { apply (key_equiv_comp_of is_bid). unfold key_equiv. by rewrite E1, E2. }
      rewrite !elem_of_cons. tauto.
Qed.

Lemma ladder_push_sorted is_bid k o m :
  StronglySorted (sorts_before is_bid) m.*1 →
  StronglySorted (sorts_before is_bid) (ladder_push (comp_of is_bid) k o m).*1.
Proof.
  induction m as [|[k' l'] m IH]; cbn; intros Hs.
  - repeat constructor.
  - apply StronglySorted_inv in Hs as [Hs Hall].
    destruct (comp_of is_bid k k') eqn:E1; cbn.
    + apply comp_of_true in E1. constructor; [by constructor|].
      constructor; [done|].
      eapply Forall_impl; [exact Hall|]. intros x Hx.
      by eapply sorts_before_trans.
    + destruct (comp_of is_bid k' k) eqn:E2; cbn.
      * apply comp_of_true in E2. constructor; [by apply IH|].
        apply Forall_forall. intros x [->|Hx]%ladder_push_keys; [done|].
        rewrite Forall_forall in Hall. auto.
      * by constructor.
Qed.

Lemma ladder_push_levels is_bid k o m :
  Forall (λ e, level_wf e.1 e.2) m →
  0 < Order.qty o → Order.price o = k →
  Forall (λ e, level_wf e.1 e.2) (ladder_push (comp_of is_bid) k o m).
Proof.
  intros Hm Hq Hp. induction m as [|[k' l'] m IH]; cbn.
  - repeat constructor; done.
  - apply Forall_cons in Hm as [Hl Hm].
    destruct (comp_of is_bid k k') eqn:E1.
    + constructor; [|by constructor]. repeat constructor; done.
    + destruct (comp_of is_bid k' k) eqn:E2.
      * constructor; [done|by apply IH].
      * assert (k' = k) as ->.
        { apply (key_equiv_comp_of is_bid). unfold key_equiv.
          by rewrite E1, E2. }
        constructor; [|done]. destruct Hl as [Hne Hall]. split; cbn in *.
        -- by destruct l'.
        -- apply Forall_app. split; [done|]. by repeat constructor.
Qed.

Lemma ladder_push_wf is_bid k o m :
  ladder_wf is_bid m → 0 < Order.qty o → Order.price o = k →
  ladder_wf is_bid (ladder_push (comp_of is_bid) k o m).
Proof.
  intros [Hs Hl] Hq Hp. split.
  - by apply ladder_push_sorted.
  - by apply ladder_push_levels.
Qed.

Lemma ladder_push_qty comp k o m :
  ladder_qty (ladder_push comp k o m) = ladder_qty m + Order.qty o.
Proof.
  induction m as [|[k' l'] m IH]; cbn [ladder_push].
  - rewrite ladder_qty_cons, ladder_qty_nil, level_qty_singleton. lia.
  - destruct (comp k k'); [|destruct (comp k' k)];
      rewrite ?ladder_qty_cons, ?IH, ?level_qty_app, ?level_qty_singleton;
      lia.
Qed.

(** Every queue is still there after a push, possibly one order longer. *)
Lemma ladder_push_elem comp k o m p level :
  (p, level) ∈ m →
  ∃ level', (p, level') ∈ ladder_push comp k o m ∧ level `prefix_of` level'.
Proof.
  induction m as [|[k' l'] m IH]; cbn [ladder_push]; intros Hin.
  - by apply elem_of_nil in Hin.
  - destruct (comp k k').
    { exists level. split; [by apply list_elem_of_further|done]. }
    apply elem_of_cons in Hin as [[= -> ->]|Hin].
    + destruct (comp k' k).
      * exists l'. split; [apply list_elem_of_here|done].
      * exists (l' ++ [o]). split; [apply list_elem_of_here|].
        by apply prefix_app_r.
    + destruct (comp k' k).
      * destruct (IH Hin) as (level' & ? & ?). exists level'.
        split; [by apply list_elem_of_further|done].
      * exists level. split; [by apply list_elem_of_further|done].
Qed.

(** The pushed order is the last of its level's queue, behind the orders
    that were already resting at that price. *)
Lemma ladder_find_push is_bid k o m :
  StronglySorted (sorts_before is_bid) m.*1 →
  ladder_find (comp_of is_bid) k (ladder_push (comp_of is_bid) k o m) =
  Some (default [] (ladder_find (comp_of is_bid) k m) ++ [o]).
Proof.
  induction m as [|[k' l'] m IH]; cbn; intros Hs.
  - by rewrite key_equiv_refl.
  - apply StronglySorted_inv in Hs as [Hs Hall].
    destruct (comp_of is_bid k k') eqn:E1; cbn.
    + rewrite key_equiv_refl.
      assert (key_equiv (comp_of is_bid) k' k = false) as ->.
      { unfold key_equiv. by rewrite E1, andb_false_r. }
      destruct (ladder_find (comp_of is_bid) k m) as [l|] eqn:Ef; [|done].
      apply ladder_find_elem in Ef. exfalso.
      apply comp_of_true in E1. rewrite Forall_forall in Hall.
      apply (sorts_before_irrefl is_bid k).
      eapply sorts_before_trans; [exact E1|]. apply Hall.
      apply list_elem_of_fmap. by exists (k, l).
    + destruct (comp_of is_bid k' k) eqn:E2; cbn.
      * assert (key_equiv (comp_of is_bid) k' k = false) as ->.
        { unfold key_equiv. by rewrite E2. }
        by apply IH.
      * assert (key_equiv (comp_of is_bid) k' k = true) as ->.
        { unfold key_equiv. by rewrite E1, E2. }
        done.
Qed.

(** Queues at other prices are found unchanged. *)
Lemma ladder_find_push_ne is_bid k o m p :
  p ≠ k →
  ladder_find (comp_of is_bid) p (ladder_push (comp_of is_bid) k o m) =
  ladder_find (comp_of is_bid) p m.
Proof.
  intros Hne. induction m as [|[k' l'] m IH]; cbn.
  - by rewrite key_equiv_ne.
  - destruct (comp_of is_bid k k') eqn:E1; cbn.
    + by rewrite (key_equiv_ne _ k p).
    + destruct (comp_of is_bid k' k) eqn:E2; cbn.
      * by rewrite IH.
      * assert (k' = k) as ->.
        { apply (key_equiv_comp_of is_bid). unfold key_equiv.
          by rewrite E1, E2. }
        by rewrite (key_equiv_ne _ k p).
Qed.

(** ** Scanning a queue for an id *)

Lemma level_scan_Some id level i :
  level_scan id level = Some i →
  ∃ o, level !! i = Some o ∧ Order.id o = id.
Proof.
  revert i. induction level as [|o level IH]; intros i; cbn; [done|].
  case_bool_decide as E.
  - intros [= <-]. by exists o.
  - destruct (level_scan id level) as [j|]; [|done].
    intros [= <-]. by apply IH.
Qed.

Lemma level_scan_elem id level :
  id ∈ Order.id <$> level → is_Some (level_scan id level).
Proof.
  induction level as [|o level IH]; cbn.
  - by intros ?%elem_of_nil.
  - intros [->|Hin]%elem_of_cons.
    + rewrite bool_decide_eq_true_2 by done. eauto.
    + case_bool_decide; [eauto|]. destruct (IH Hin) as [j ->]. cbn. eauto.
Qed.

Lemma level_scan_None id level :
  level_scan id level = None → id ∉ Order.id <$> level.
Proof.
  intros Hn Hin. apply level_scan_elem in Hin as [? ?]. congruence.
Qed.

Lemma level_qty_delete (level : list Order.t) (i : nat) o :
  level !! i = Some o →
  level_qty (delete i level) = level_qty level - Order.qty o.
Proof.
  revert i. induction level as [|o' level IH]; intros [|i] Hi; try done.
  - injection Hi as ->.
    change (delete 0%nat (o :: level)) with level.
    rewrite level_qty_cons. lia.
  - change (delete (S i) (o' :: level)) with (o' :: delete i level).
    rewrite !level_qty_cons, (IH i Hi). lia.
Qed.

Lemma level_ids_delete (level : list Order.t) (i : nat) o id' :
  level !! i = Some o → id' ≠ Order.id o →
  id' ∈ Order.id <$> level → id' ∈ Order.id <$> delete i level.
Proof.
  revert i. induction level as [|o' level IH]; intros [|i]; cbn; try done.
  - intros [= ->] Hne [->|Hin]%elem_of_cons; done.
  - intros Hi Hne [->|Hin]%elem_of_cons.
    + apply list_elem_of_here.
    + apply list_elem_of_further. by eapply IH.
Qed.

(** ** Writing a queue back: [level.erase(order_it)] and the empty test *)

Lemma ladder_store_qty is_bid k level level' m :
  ladder_find (comp_of is_bid) k m = Some level →
  ladder_qty (ladder_store (comp_of is_bid) k level' m) =
  ladder_qty m - level_qty level + level_qty level'.
Proof.
  induction m as [|[k' l'] m IH]; cbn; [done|].
  destruct (key_equiv _ k' k) eqn:E.
  - intros [= ->]. destruct level'; rewrite ?ladder_qty_cons; cbn [snd].
    + rewrite level_qty_nil. lia.
    + lia.
  - intros Hf. rewrite !ladder_qty_cons, (IH Hf). lia.
Qed.

Lemma ladder_store_elem is_bid k level' m e :
  e ∈ ladder_store (comp_of is_bid) k level' m →
  e ∈ m ∨ (e = (k, level') ∧ level' ≠ []).
Proof.
  induction m as [|[k' l'] m IH]; cbn; [by intros ?%elem_of_nil|].
  destruct (key_equiv _ k' k) eqn:E.
  - apply key_equiv_comp_of in E as ->. destruct level' as [|o level'].
    + intros ?. left. by apply list_elem_of_further.
    + intros [->|?]%elem_of_cons; [by right|].
      left. by apply list_elem_of_further.
  - intros [->|Hin]%elem_of_cons; [left; apply list_elem_of_here|].
    destruct (IH Hin) as [?|?]; [left; by apply list_elem_of_further|by right].
Qed.

Lemma ladder_store_keys is_bid k level' m :
  (ladder_store (comp_of is_bid) k level' m).*1 `sublist_of` m.*1.
Proof.
  induction m as [|[k' l'] m IH]; cbn; [done|].
  destruct (key_equiv _ k' k).
  - destruct level'; cbn; [by apply sublist_cons|done].
  - cbn. by apply sublist_skip.
Qed.

(** A queue other than the one written back is still there; the one
    written back is there in its new state unless it is empty. *)
Lemma ladder_store_keeps is_bid k level level' m e :
  ladder_find (comp_of is_bid) k m = Some level →
  e ∈ m → e = (k, level) ∨ e ∈ ladder_store (comp_of is_bid) k level' m.
Proof.
  induction m as [|[k' l'] m IH]; cbn; [done|].
  destruct (key_equiv _ k' k) eqn:E.
  - apply key_equiv_comp_of in E as ->. intros [= ->].
    intros [->|Hin]%elem_of_cons; [by left|]. right.
    destruct level'; [done|by apply list_elem_of_further].
  - intros Hf [->|Hin]%elem_of_cons; [right; apply list_elem_of_here|].
    destruct (IH Hf Hin) as [?|?]; [by left|].
    right. by apply list_elem_of_further.
Qed.

Lemma ladder_store_new is_bid k level level' m :
  ladder_find (comp_of is_bid) k m = Some level → level' ≠ [] →
  (k, level') ∈ ladder_store (comp_of is_bid) k level' m.
Proof.
  induction m as [|[k' l'] m IH]; cbn; [done|].
  destruct (key_equiv _ k' k) eqn:E.
  - apply key_equiv_comp_of in E as ->. intros _ Hne.
    destruct level'; [done|apply list_elem_of_here].
  - intros Hf Hne. apply list_elem_of_further. by apply IH.
Qed.

Lemma StronglySorted_sublist {A} (R : relation A) (l1 l2 : list A) :
  l1 `sublist_of` l2 → StronglySorted R l2 → StronglySorted R l1.
Proof.
  induction 1 as [|x l1 l2 Hsub IH|x l1 l2 Hsub IH];
    rewrite ?StronglySorted_cons; [done|..].
  - intros [Hall Hs]. split; [|by apply IH].
    rewrite Forall_forall in *. intros y Hy. apply Hall.
    by eapply elem_of_sublist.
  - intros [_ Hs]. by apply IH.
Qed.

Lemma ladder_store_wf is_bid k level' m :
  ladder_wf is_bid m → (level' = [] ∨ level_wf k level') →
  ladder_wf is_bid (ladder_store (comp_of is_bid) k level' m).
Proof.
  intros [Hs Hl] Hw. split.
  - eapply StronglySorted_sublist; [apply ladder_store_keys|done].
  - rewrite Forall_forall in *. intros e [?|[-> Hne]]%ladder_store_elem;
      [by apply Hl|]. by destruct Hw.
Qed.

(** ** The inner loop, one iteration at a time *)

Lemma match_level_nil is_bid inc_id lp q idx :
  match_level is_bid inc_id lp q [] idx = (q, [], idx, []).
Proof. by simp match_level. Qed.

Lemma match_level_idle is_bid inc_id lp q level idx :
  q ≤ 0 → match_level is_bid inc_id lp q level idx = (q, level, idx, []).
Proof.
  intros Hq. destruct level as [|r rest]; simp match_level; [done|].
  destruct (decide (0 < q)); simpl; [lia|done].
Qed.

(** One turn of the loop on a non-empty queue.  When the front order is not
    popped, the trade has used up the incoming quantity and the loop ends. *)
Lemma match_level_cons is_bid inc_id lp q r rest idx :
  match_level is_bid inc_id lp q (r :: rest) idx =
  if decide (0 < q) then
    let trade_qty := Z.min q (Order.qty r) in
    let tr := make_trade is_bid inc_id (Order.id r) lp trade_qty in
    if decide (Order.qty r - trade_qty = 0) then
      let '(q', level', idx', ts) :=
        match_level is_bid inc_id lp (q - trade_qty) rest
          (delete (Order.id r) idx) in
      (q', level', idx', tr :: ts)
    else (q - trade_qty, Order.sub_qty r trade_qty :: rest, idx, [tr])
  else (q, r :: rest, idx, []).
Proof.
  simp match_level.
  destruct (decide (0 < q)) as [Hq|Hq]; simpl; [|done].
  destruct (decide (Order.qty r - q `min` Order.qty r = 0)) as [E|E]; simpl;
    [done|].
  rewrite match_level_idle by lia. done.
Qed.

(** The inner loop fills the queue from the front. *)
Lemma match_level_outcome is_bid inc_id lp q level idx :
  level_outcome is_bid inc_id lp q level idx
    (match_level is_bid inc_id lp q level idx).
Proof.
  revert q idx. induction level as [|r rest IH]; intros q idx.
  - rewrite match_level_nil.
    pose proof (level_swept is_bid inc_id lp q [] idx [] [] eq_refl) as H.
    rewrite level_qty_nil, Z.sub_0_r in H. apply H; [by right|done].
  - rewrite match_level_cons. destruct (decide (0 < q)) as [Hq|Hq].
    + cbn zeta. destruct (decide _) as [E|E].
      * assert (Hmin : q `min` Order.qty r = Order.qty r) by lia.
        rewrite Hmin. clear E.
        specialize (IH (q - Order.qty r) (delete (Order.id r) idx)).
        destruct IH as [filled rest_ -> Hstop Hpos|filled r' rest_ -> Hpart].
        -- pose proof (level_swept is_bid inc_id lp q (r :: filled ++ rest_)
                         idx (r :: filled) rest_ eq_refl) as H.
           rewrite level_qty_cons in H.
           replace (q - (Order.qty r + level_qty filled))
             with (q - Order.qty r - level_qty filled) in H by lia.
           apply H; [tauto|lia].
        -- pose proof (level_partial is_bid inc_id lp q
                         (r :: filled ++ r' :: rest_)
                         idx (r :: filled) r' rest_ eq_refl) as H.
           rewrite level_qty_cons in H.
           replace (q - (Order.qty r + level_qty filled))
             with (q - Order.qty r - level_qty filled) in H by lia.
           apply H. lia.
      * assert (Hmin : q `min` Order.qty r = q) by lia.
        rewrite Hmin. replace (q - q) with 0 by lia.
        pose proof (level_partial is_bid inc_id lp q (r :: rest) idx
                      [] r rest eq_refl) as H.
        rewrite level_qty_nil, Z.sub_0_r in H. apply H. lia.
    + pose proof (level_swept is_bid inc_id lp q (r :: rest) idx
                    [] (r :: rest) eq_refl) as H.
      rewrite level_qty_nil, Z.sub_0_r in H. apply H; [left; lia|done].
Qed.

(** ** The outer loop *)

Lemma match_book_idle is_bid inc_id p q book idx :
  q ≤ 0 → match_book is_bid inc_id p q book idx = (q, book, idx, []).
Proof.
  intros Hq. destruct book as [|[lp level] rest]; [done|]. cbn.
  rewrite bool_decide_eq_false_2 by lia. done.
Qed.

Lemma erase_ids_app l1 l2 idx :
  erase_ids (l1 ++ l2) idx = erase_ids l2 (erase_ids l1 idx).
Proof. unfold erase_ids. by rewrite foldl_app. Qed.

Lemma ladder_orders_cons lp level m :
  ladder_orders ((lp, level) :: m) = level ++ ladder_orders m.
Proof. done. Qed.

Lemma sweep_trades_cons is_bid inc_id lp level m :
  sweep_trades is_bid inc_id ((lp, level) :: m) =
  (fill_trade is_bid inc_id lp <$> level) ++ sweep_trades is_bid inc_id m.
Proof. done. Qed.

(** The outer loop sweeps the ladder from the best price outward. *)
Lemma match_book_outcome is_bid inc_id p q book idx :
  book_outcome is_bid inc_id p q book idx
    (match_book is_bid inc_id p q book idx).
Proof.
  revert q idx. induction book as [|[lp level] rest IH]; intros q idx.
  - pose proof (book_swept is_bid inc_id p q [] idx [] [] eq_refl) as H.
    cbn in H. rewrite Z.sub_0_r in H. apply H; auto.
  - cbn [match_book].
    destruct (bool_decide (0 < q) && crosses is_bid lp p) eqn:Hc.
    + apply andb_true_iff in Hc as [Hq Hx]. apply bool_decide_eq_true in Hq.
      pose proof (match_level_outcome is_bid inc_id lp q level idx) as Hl.
      destruct (match_level is_bid inc_id lp q level idx)
        as [[[q1 level1] idx1] ts1].
      destruct level1 as [|o level1].
      * specialize (IH q1 idx1).
        assert (q1 = q - level_qty level ∧ idx1 = erase_ids level idx ∧
                ts1 = fill_trade is_bid inc_id lp <$> level ∧
                (0 ≤ q1)) as (-> & -> & -> & Hq1).
        { inversion Hl as [filled rest_ Hlv Hstop Hpos|]; subst.
          rewrite app_nil_r. split_and!; [done..|lia]. }
        destruct IH as [swept rest_ -> Hsw Hstop Hpos
                       |swept lp' level' rest_ q2 level2 idx2 ts2
                          -> Hsw Hx' Hq2 Hl2 Hne Hz].
        -- pose proof (book_swept is_bid inc_id p q
                         ((lp, level) :: swept ++ rest_) idx
                         ((lp, level) :: swept) rest_ eq_refl) as H.
           rewrite ladder_qty_cons, ladder_orders_cons, erase_ids_app,
             sweep_trades_cons in H.
           replace (q - (level_qty level + ladder_qty swept))
             with (q - level_qty level - ladder_qty swept) in H by lia.
           apply H; [by constructor|done|lia].
        -- pose proof (book_stopped is_bid inc_id p q
                         ((lp, level) :: swept ++ (lp', level') :: rest_) idx
                         ((lp, level) :: swept) lp' level' rest_
                         q2 level2 idx2 ts2 eq_refl) as H.
           rewrite ladder_qty_cons, ladder_orders_cons, erase_ids_app,
             sweep_trades_cons in H.
           replace (q - (level_qty level + ladder_qty swept))
             with (q - level_qty level - ladder_qty swept) in H by lia.
           rewrite <-app_assoc in H.
           apply H; [by constructor|done..].
      * assert (q1 = 0) as Hq1.
        { inversion Hl as [filled rest_ Hlv Hstop Hpos|]; subst; [|done].
          destruct Hstop; [lia|done]. }
        rewrite match_book_idle by lia.
        pose proof (book_stopped is_bid inc_id p q
                      ((lp, level) :: rest) idx [] lp level rest
                      q1 (o :: level1) idx1 ts1 eq_refl) as H.
        cbn in H. rewrite Z.sub_0_r in H. rewrite app_nil_r.
        apply H; auto.
    + pose proof (book_swept is_bid inc_id p q ((lp, level) :: rest) idx
                    [] ((lp, level) :: rest) eq_refl) as H.
      cbn in H. rewrite Z.sub_0_r in H. apply H; [done| |done].
      apply andb_false_iff in Hc as [Hq|Hx].
      * left. apply bool_decide_eq_false in Hq. lia.
      * right; right. eauto.
Qed.

(** Name the outcome of the outer loop in the goal and take its result
    apart. *)
Ltac outer_loop Hout q book' idx' ts :=
  match goal with
  | |- context [match_book ?b ?i ?p ?q0 ?m ?x] =>
      pose proof (match_book_outcome b i p q0 m x) as Hout;
      destruct (match_book b i p q0 m x) as [[[q book'] idx'] ts]
  end.

(** ** Consequences for quantities *)

Lemma make_trade_qty is_bid inc_id rid lp tq :
  Trade.qty (make_trade is_bid inc_id rid lp tq) = tq.
Proof. by destruct is_bid. Qed.

Lemma make_trade_price is_bid inc_id rid lp tq :
  Trade.price (make_trade is_bid inc_id rid lp tq) = lp.
Proof. by destruct is_bid. Qed.

Lemma trades_qty_cons t ts : trades_qty (t :: ts) = Trade.qty t + trades_qty ts.
Proof. done. Qed.

Lemma trades_qty_nil : trades_qty [] = 0.
Proof. done. Qed.

Lemma fill_trades_qty is_bid inc_id lp filled :
  trades_qty (fill_trade is_bid inc_id lp <$> filled) = level_qty filled.
Proof.
  induction filled as [|o filled IH]; [done|].
  rewrite fmap_cons, trades_qty_cons, level_qty_cons, IH.
  unfold fill_trade. by rewrite make_trade_qty.
Qed.

Lemma sweep_trades_qty is_bid inc_id swept :
  trades_qty (sweep_trades is_bid inc_id swept) = ladder_qty swept.
Proof.
  induction swept as [|[lp level] swept IH]; [done|].
  rewrite sweep_trades_cons, trades_qty_app, ladder_qty_cons, IH.
  by rewrite fill_trades_qty.
Qed.

(** The inner loop moves quantity from the two orders into the trade. *)
Lemma level_outcome_qty is_bid inc_id lp q level idx q' level' idx' ts :
  level_outcome is_bid inc_id lp q level idx (q', level', idx', ts) →
  level_qty level = level_qty level' + trades_qty ts ∧
  q = q' + trades_qty ts ∧
  (0 ≤ q → 0 ≤ q').
Proof.
  inversion 1 as [filled rest_ Hlv Hstop Hpos|filled r rest_ Hlv Hpart]; subst.
  - rewrite level_qty_app, fill_trades_qty. lia.
  - rewrite level_qty_app, !level_qty_cons, trades_qty_app, fill_trades_qty,
      trades_qty_cons, trades_qty_nil, make_trade_qty.
    cbn [Order.sub_qty Order.qty]. lia.
Qed.

(** So does the outer loop. *)
Lemma book_outcome_qty is_bid inc_id p q book idx q' book' idx' ts :
  book_outcome is_bid inc_id p q book idx (q', book', idx', ts) →
  ladder_qty book = ladder_qty book' + trades_qty ts ∧
  q = q' + trades_qty ts ∧
  (0 ≤ q → 0 ≤ q').
Proof.
  inversion 1 as [swept rest_ Hb Hsw Hstop Hpos
                 |swept lp level rest_ q1 level1 idx1 ts1
                    Hb Hsw Hx Hq Hl Hne Hz]; subst.
  - rewrite ladder_qty_app, sweep_trades_qty. lia.
  - apply level_outcome_qty in Hl as (Hl1 & Hl2 & Hl3).
    rewrite ladder_qty_app, !ladder_qty_cons, trades_qty_app,
      sweep_trades_qty. lia.
Qed.

Lemma match_book_qty is_bid inc_id p q book idx :
  let '(q', book', idx', ts) := match_book is_bid inc_id p q book idx in
  ladder_qty book = ladder_qty book' + trades_qty ts ∧
  q = q' + trades_qty ts ∧
  (0 ≤ q → 0 ≤ q').
Proof.
  pose proof (match_book_outcome is_bid inc_id p q book idx) as H.
  destruct (match_book is_bid inc_id p q book idx) as [[[q' book'] idx'] ts].
  by eapply book_outcome_qty.
Qed.

(** ** The operations, both sides at once *)

Lemma match_unfold inc is_bid ob :
  match_ inc is_bid ob =
  let '(q, book', idx', ts) :=
    match_book is_bid (Order.id inc) (Order.price inc) (Order.qty inc)
      (ladder_of (negb is_bid) ob) (order_index ob) in
  (Order.with_qty inc q,
   {| bids := if is_bid then bids ob else book';
      asks := if is_bid then book' else asks ob;
      order_index := idx';
      trades := trades ob ++ ts; next_id := next_id ob |}).
Proof. unfold match_. by destruct is_bid. Qed.

Lemma cancel_unfold id ob :
  cancel id ob =
  match order_index ob !! id with
  | None => (false, ob)
  | Some (price, is_bid) =>
      match ladder_find (comp_of is_bid) price (ladder_of is_bid ob) with
      | Some level =>
          match level_scan id level with
          | Some i =>
              (true,
               set_ladder is_bid
                 (ladder_store (comp_of is_bid) price (delete i level)
                    (ladder_of is_bid ob))
                 (erase_index id ob))
          | None => (false, erase_index id ob)
          end
      | None => (false, erase_index id ob)
      end
  end.
Proof.
  unfold cancel. destruct (order_index ob !! id) as [[price []]|]; done.
Qed.

Lemma resting_qty_ladders is_bid ob :
  resting_qty ob =
  ladder_qty (ladder_of is_bid ob) + ladder_qty (ladder_of (negb is_bid) ob).
Proof. unfold resting_qty. destruct is_bid; cbn; lia. Qed.

(** ** Conservation of quantity *)

(** Matching takes the traded quantity once from the incoming order and
    once from the resting side. *)
Lemma match_qty inc is_bid ob :
  let '(inc', ob') := match_ inc is_bid ob in
  resting_qty ob = resting_qty ob' + trades_qty (trades ob')
                   - trades_qty (trades ob) ∧
  Order.qty inc = Order.qty inc' + trades_qty (trades ob')
                  - trades_qty (trades ob) ∧
  (0 ≤ Order.qty inc → 0 ≤ Order.qty inc').
Proof.
  rewrite match_unfold.
  pose proof (match_book_qty is_bid (Order.id inc) (Order.price inc)
                (Order.qty inc) (ladder_of (negb is_bid) ob)
                (order_index ob)) as H.
  destruct (match_book _ _ _ _ _ _) as [[[q book'] idx'] ts].
  destruct H as (H1 & H2 & H3).
  rewrite !(resting_qty_ladders is_bid). cbn [Order.with_qty Order.qty trades].
  rewrite trades_qty_app.
  destruct is_bid; cbn [ladder_of negb bids asks] in *; lia.
Qed.

(** Every call keeps the balance: what was submitted is at rest, or was
    traded (and then left two orders), or was dropped, or was cancelled. *)
Lemma step_balance o ob :
  o ≠ Clear →
  resting_qty ob + 2 * trades_qty (trades ob) + submitted (account o ob) =
  resting_qty (step o ob) + 2 * trades_qty (trades (step o ob))
  + dropped (account o ob) + cancelled (account o ob).
Proof.
  intros Hne. destruct o as [price qty is_bid|qty is_bid|id|]; [..|done].
  - cbn [step account]. unfold add_limit.
    case_bool_decide as Hq; [cbn; lia|].
    pose proof (match_qty (Order.mk (next_id ob) price qty) is_bid
                  (bump_next_id ob)) as H.
    destruct (match_ _ is_bid (bump_next_id ob)) as [inc' ob'].
    destruct H as (H1 & H2 & H3). cbn [Order.qty] in *.
    change (resting_qty (bump_next_id ob)) with (resting_qty ob) in H1.
    change (trades (bump_next_id ob)) with (trades ob) in *.
    case_bool_decide as Hr; cbn [snd submitted dropped cancelled].
    + unfold resting_qty in *. cbn [bids asks trades].
      destruct is_bid; rewrite ladder_push_qty; lia.
    + lia.
  - cbn [step account]. unfold add_market.
    case_bool_decide as Hq; [cbn; lia|].
    pose proof (match_qty (Order.mk (next_id ob) (market_price is_bid) qty)
                  is_bid (bump_next_id ob)) as H.
    destruct (match_ _ is_bid (bump_next_id ob)) as [inc' ob'].
    destruct H as (H1 & H2 & H3). cbn [Order.qty] in *.
    change (resting_qty (bump_next_id ob)) with (resting_qty ob) in H1.
    change (trades (bump_next_id ob)) with (trades ob) in *.
    cbn [fst snd submitted dropped cancelled]. lia.
  - cbn [step account]. unfold cancel_target. rewrite cancel_unfold.
    assert (Hfail : resting_qty ob + 2 * trades_qty (trades ob) + 0 =
                    resting_qty (erase_index id ob)
                    + 2 * trades_qty (trades (erase_index id ob)) + 0 + 0).
    { change (resting_qty (erase_index id ob)) with (resting_qty ob).
      change (trades (erase_index id ob)) with (trades ob). lia. }
    destruct (order_index ob !! id) as [[price is_bid]|];
      [|cbn [fst snd submitted dropped cancelled]; lia].
    destruct (ladder_find _ price _) as [level|] eqn:Ef; [|exact Hfail].
    destruct (level_scan id level) as [i|] eqn:Es; [|exact Hfail].
    clear Hfail.
    apply level_scan_Some in Es as (o & Hi & Hid).
    cbn [fst snd submitted dropped cancelled]. rewrite Hi. cbn [from_option].
    rewrite !(resting_qty_ladders is_bid).
    assert (ladder_of is_bid (set_ladder is_bid
              (ladder_store (comp_of is_bid) price (delete i level)
                 (ladder_of is_bid ob)) (erase_index id ob)) =
            ladder_store (comp_of is_bid) price (delete i level)
              (ladder_of is_bid ob)) as -> by (by destruct is_bid).
    assert (ladder_of (negb is_bid) (set_ladder is_bid
              (ladder_store (comp_of is_bid) price (delete i level)
                 (ladder_of is_bid ob)) (erase_index id ob)) =
            ladder_of (negb is_bid) ob) as -> by (by destruct is_bid).
    rewrite (ladder_store_qty _ _ level) by done.
    rewrite (level_qty_delete _ _ o) by done.
    assert (trades (set_ladder is_bid
              (ladder_store (comp_of is_bid) price (delete i level)
                 (ladder_of is_bid ob)) (erase_index id ob)) = trades ob)
      as -> by done.
    lia.
Qed.

Lemma run_balance ops ob :
  Forall (λ o, o ≠ Clear) ops →
  resting_qty ob + 2 * trades_qty (trades ob)
  + submitted (run_ledger ops ob) =
  resting_qty (run ops ob) + 2 * trades_qty (trades (run ops ob))
  + dropped (run_ledger ops ob) + cancelled (run_ledger ops ob).
Proof.
  revert ob. induction ops as [|o ops IH]; intros ob Hnc; cbn.
  - lia.
  - apply Forall_cons in Hnc as [Ho Hnc].
    pose proof (step_balance o ob Ho). specialize (IH (step o ob) Hnc). lia.
Qed.

(** C1 (as amended).  After any finite sequence of [add_limit],
    [add_market] and [cancel] calls on a book constructed empty, the sum of
    the quantities of the accepted submissions equals the quantity at rest,
    plus twice the quantity of the recorded trades (a trade takes its
    quantity from the buy order and from the sell order), plus the residual
    quantity of market orders that was dropped, plus the quantity erased by
    successful cancels. *)
Theorem conservation_of_quantity ops :
  Forall (λ o, o ≠ Clear) ops →
  submitted (run_ledger ops empty_book) =
  resting_qty (run ops empty_book)
  + 2 * trades_qty (trades (run ops empty_book))
  + dropped (run_ledger ops empty_book)
  + cancelled (run_ledger ops empty_book).
Proof.
  intros Hnc. pose proof (run_balance ops empty_book Hnc) as H.
  change (resting_qty empty_book) with 0 in H.
  change (trades_qty (trades empty_book)) with 0 in H. lia.
Qed.

Lemma conservation_of_quantity_witness :
  Forall (λ o, o ≠ Clear) mixed_run ∧
  submitted (run_ledger mixed_run empty_book) =
  resting_qty (run mixed_run empty_book)
  + 2 * trades_qty (trades (run mixed_run empty_book))
  + dropped (run_ledger mixed_run empty_book)
  + cancelled (run_ledger mixed_run empty_book).
Proof.
  assert (H : Forall (λ o, o ≠ Clear) mixed_run)
    by (repeat constructor; discriminate).
  split; [exact H|]. exact (conservation_of_quantity mixed_run H).
Defined.

(** C1 as stated fails: with every trade counted once, the two submissions
    of [basic_matching] (50 and 30) are not balanced by the 20 left at rest
    and the one trade of 30. *)
Lemma conservation_single_count_fails :
  submitted (run_ledger basic_matching empty_book) ≠
  resting_qty (run basic_matching empty_book)
  + trades_qty (trades (run basic_matching empty_book))
  + dropped (run_ledger basic_matching empty_book)
  + cancelled (run_ledger basic_matching empty_book).
Proof. vm_compute. discriminate. Qed.

Example mixed_run_ledger :
  run_ledger mixed_run empty_book = mk_ledger 130 20 10
  ∧ resting_qty (run mixed_run empty_book) = 0
  ∧ trades_qty (trades (run mixed_run empty_book)) = 50.
Proof. vm_compute. done. Qed.

(** ** Matching keeps the ladders well formed *)

Lemma level_outcome_orders is_bid inc_id lp q level idx q' level' idx' ts :
  level_outcome is_bid inc_id lp q level idx (q', level', idx', ts) →
  Forall (λ o, 0 < Order.qty o ∧ Order.price o = lp) level →
  Forall (λ o, 0 < Order.qty o ∧ Order.price o = lp) level'.
Proof.
  inversion 1 as [filled rest_ Hlv Hstop Hpos|filled r rest_ Hlv Hpart]; subst.
  - by intros [_ ?]%Forall_app.
  - intros [_ [[Hr Hp] Hrest]%Forall_cons]%Forall_app.
    constructor; [|done]. cbn. split; [lia|done].
Qed.

Lemma book_outcome_wf side is_bid inc_id p q book idx q' book' idx' ts :
  book_outcome is_bid inc_id p q book idx (q', book', idx', ts) →
  ladder_wf side book → ladder_wf side book'.
Proof.
  inversion 1 as [swept rest_ Hb Hsw Hstop Hpos
                 |swept lp level rest_ q1 level1 idx1 ts1
                    Hb Hsw Hx Hq Hl Hne Hz]; subst; intros [Hs Hlv].
  - rewrite fmap_app in Hs. apply StronglySorted_app_1_r in Hs.
    apply Forall_app in Hlv as [_ Hlv]. by split.
  - rewrite fmap_app in Hs. apply StronglySorted_app_1_r in Hs.
    apply Forall_app in Hlv as [_ [[_ Hlevel] Hlv]%Forall_cons].
    split; [done|]. constructor; [|done]. split; [done|]. cbn in *.
    by eapply level_outcome_orders.
Qed.

Lemma book_outcome_keys is_bid inc_id p q book idx q' book' idx' ts :
  book_outcome is_bid inc_id p q book idx (q', book', idx', ts) →
  ∀ x, x ∈ book'.*1 → x ∈ book.*1.
Proof.
  inversion 1 as [swept rest_ Hb Hsw Hstop Hpos
                 |swept lp level rest_ q1 level1 idx1 ts1
                    Hb Hsw Hx Hq Hl Hne Hz]; subst; intros x Hin;
    rewrite fmap_app, elem_of_app; by right.
Qed.

(** When the incoming order comes out of the loop with quantity left, no
    level that remains in the opposing ladder crosses its price. *)
Lemma book_outcome_residual is_bid inc_id p q book idx q' book' idx' ts :
  book_outcome is_bid inc_id p q book idx (q', book', idx', ts) →
  StronglySorted (sorts_before (negb is_bid)) book.*1 →
  0 < q' →
  Forall (λ e, crosses is_bid e.1 p = false) book'.
Proof.
  inversion 1 as [swept rest_ Hb Hsw Hstop Hpos
                 |swept lp level rest_ q1 level1 idx1 ts1
                    Hb Hsw Hx Hq Hl Hne Hz]; subst; intros Hs Hq'; [|lia].
  destruct Hstop as [?|[->|(e & rest' & -> & Hx)]]; [lia|done|].
  rewrite fmap_app in Hs. apply StronglySorted_app_1_r in Hs.
  rewrite fmap_cons in Hs. apply StronglySorted_cons in Hs as [Hall _].
  constructor; [done|].
  apply crosses_false in Hx. rewrite Forall_fmap in Hall.
  eapply Forall_impl; [exact Hall|]. intros e' He'. cbn in He'.
  apply crosses_false. by eapply sorts_before_trans.
Qed.

(** ** Matching and the order index *)

Lemma erase_ids_lookup_Some popped idx id v :
  erase_ids popped idx !! id = Some v →
  idx !! id = Some v ∧ id ∉ Order.id <$> popped.
Proof.
  revert idx. induction popped as [|o popped IH]; intros idx; cbn.
  - intros ?. split; [done|]. apply not_elem_of_nil.
  - intros [Hl Hn]%IH. apply lookup_delete_Some in Hl as [Hne Hl].
    split; [done|]. rewrite not_elem_of_cons. done.
Qed.

Lemma erase_ids_lookup_None popped idx id :
  idx !! id = None → erase_ids popped idx !! id = None.
Proof.
  intros Hn. destruct (erase_ids popped idx !! id) eqn:E; [|done].
  apply erase_ids_lookup_Some in E as [? _]. congruence.
Qed.

(** The orders the inner loop popped are erased from the index; every other
    order of the queue is still in it. *)
Lemma level_outcome_index is_bid inc_id lp q level idx q' level' idx' ts :
  level_outcome is_bid inc_id lp q level idx (q', level', idx', ts) →
  ∃ popped,
    idx' = erase_ids popped idx ∧
    ∀ o, o ∈ level →
      o ∈ popped ∨ Order.id o ∈ Order.id <$> level'.
Proof.
  inversion 1 as [filled rest_ Hlv Hstop Hpos|filled r rest_ Hlv Hpart]; subst.
  - exists filled. split; [done|]. intros o [?|?]%elem_of_app; [by left|].
    right. by apply list_elem_of_fmap_2.
  - exists filled. split; [done|]. intros o [?|Hin]%elem_of_app; [by left|].
    right. apply elem_of_cons in Hin as [->|Hin]; cbn.
    + apply list_elem_of_here.
    + apply list_elem_of_further. by apply list_elem_of_fmap_2.
Qed.

Lemma book_outcome_index is_bid inc_id p q book idx q' book' idx' ts :
  book_outcome is_bid inc_id p q book idx (q', book', idx', ts) →
  ∃ popped,
    idx' = erase_ids popped idx ∧
    ∀ lp level o, (lp, level) ∈ book → o ∈ level →
      o ∈ popped ∨
      ∃ level', (lp, level') ∈ book' ∧ Order.id o ∈ Order.id <$> level'.
Proof.
  inversion 1 as [swept rest_ Hb Hsw Hstop Hpos
                 |swept lp level rest_ q1 level1 idx1 ts1
                    Hb Hsw Hx Hq Hl Hne Hz]; subst.
  - exists (ladder_orders swept). split; [done|].
    intros lp level o [Hin|Hin]%elem_of_app Ho.
    + left. apply list_elem_of_bind. by exists (lp, level).
    + right. exists level. split; [done|]. by apply list_elem_of_fmap_2.
  - apply level_outcome_index in Hl as (popped & -> & Hpop).
    exists (ladder_orders swept ++ popped). split; [by rewrite erase_ids_app|].
    intros lp' level' o [Hin|Hin]%elem_of_app Ho.
    + left. apply elem_of_app. left.
      apply list_elem_of_bind. by exists (lp', level').
    + apply elem_of_cons in Hin as [[= -> ->]|Hin].
      * destruct (Hpop o Ho) as [?|?].
        -- left. apply elem_of_app. by right.
        -- right. exists level1. split; [apply list_elem_of_here|done].
      * right. exists level'. split; [by apply list_elem_of_further|].
        by apply list_elem_of_fmap_2.
Qed.

(** ** The invariant is kept by every operation *)

Lemma empty_book_wf : book_wf empty_book.
Proof.
  split; cbn.
  - split; constructor.
  - split; constructor.
  - intros id p is_bid Hl. by rewrite lookup_empty in Hl.
  - intros pb pa Hb. by apply elem_of_nil in Hb.
Qed.

Lemma clear_wf ob : book_wf (clear ob).
Proof. destruct empty_book_wf. by split. Qed.

Lemma bump_next_id_wf ob : book_wf ob → book_wf (bump_next_id ob).
Proof. intros [? ? ? ?]. by split. Qed.

Lemma ladder_push_has is_bid k o m :
  ∃ level, (k, level ++ [o]) ∈ ladder_push (comp_of is_bid) k o m.
Proof.
  induction m as [|[k' l'] m IH]; cbn.
  - exists []. apply list_elem_of_here.
  - destruct (comp_of is_bid k k') eqn:E1.
    + exists []. apply list_elem_of_here.
    + destruct (comp_of is_bid k' k) eqn:E2.
      * destruct IH as [level ?]. exists level. by apply list_elem_of_further.
      * assert (k' = k) as ->.
        { apply (key_equiv_comp_of is_bid). unfold key_equiv.
          by rewrite E1, E2. }
        exists l'. apply list_elem_of_here.
Qed.

(** The outcome of [match] on a well-formed book. *)
Lemma match_wf inc is_bid ob :
  book_wf ob →
  let '(inc', ob') := match_ inc is_bid ob in
  book_wf ob' ∧
  (0 < Order.qty inc' →
   Forall (λ e, crosses is_bid e.1 (Order.price inc) = false)
     (ladder_of (negb is_bid) ob')) ∧
  ladder_of is_bid ob' = ladder_of is_bid ob ∧
  next_id ob' = next_id ob ∧
  Order.id inc' = Order.id inc ∧
  Order.price inc' = Order.price inc.
Proof.
  intros [Hbids Hasks Hidx Hspread]. rewrite match_unfold.
  outer_loop Hout q book' idx' ts.
  assert (Hopp : ladder_wf (negb is_bid) (ladder_of (negb is_bid) ob))
    by (by destruct is_bid).
  pose proof (book_outcome_wf _ _ _ _ _ _ _ _ _ _ _ Hout Hopp) as Hwf'.
  pose proof (book_outcome_keys _ _ _ _ _ _ _ _ _ _ Hout) as Hkeys.
  destruct (book_outcome_index _ _ _ _ _ _ _ _ _ _ Hout)
    as (popped & -> & Hpop).
  split_and!.
  - split; cbn [bids asks order_index].
    + destruct is_bid; done.
    + destruct is_bid; done.
    + intros id p side [Hl Hnp]%erase_ids_lookup_Some.
      destruct (Hidx id p side Hl) as (level & Hin & Hid).
      destruct (decide (side = is_bid)) as [->|Hside].
      * exists level. split; [|done]. by destruct is_bid.
      * assert (side = negb is_bid) as -> by (by destruct side, is_bid).
        apply list_elem_of_fmap in Hid as (o & -> & Ho).
        destruct (Hpop p level o Hin Ho) as [Hp|(level' & Hin' & Hid')].
        -- exfalso. apply Hnp. by apply list_elem_of_fmap_2.
        -- exists level'. split; [|done]. by destruct is_bid.
    + intros pb pa Hb Ha. destruct is_bid; cbn in *; auto.
  - intros Hq. cbn [Order.with_qty Order.qty] in Hq.
    assert (ladder_of (negb is_bid)
              {| bids := if is_bid then bids ob else book';
                 asks := if is_bid then book' else asks ob;
                 order_index := erase_ids popped (order_index ob);
                 trades := trades ob ++ ts; next_id := next_id ob |} = book')
      as -> by (by destruct is_bid).
    eapply book_outcome_residual; [exact Hout| |done].
    by destruct Hopp.
  - by destruct is_bid.
  - done.
  - done.
  - done.
Qed.

Lemma add_market_wf qty is_bid ob :
  book_wf ob → book_wf (add_market qty is_bid ob).2.
Proof.
  intros Hwf. unfold add_market. case_bool_decide as Hrej; [done|].
  pose proof (match_wf (Order.mk (next_id ob) (market_price is_bid) qty)
                is_bid (bump_next_id ob) (bump_next_id_wf _ Hwf)) as Hm.
  destruct (match_ _ _ _) as [inc' ob']. by destruct Hm as [? _].
Qed.

Lemma add_limit_wf price qty is_bid ob :
  book_wf ob → book_wf (add_limit price qty is_bid ob).2.
Proof.
  intros Hwf. unfold add_limit. case_bool_decide as Hrej; [done|].
  pose proof (match_wf (Order.mk (next_id ob) price qty)
                is_bid (bump_next_id ob) (bump_next_id_wf _ Hwf)) as Hm.
  destruct (match_ _ _ _) as [inc' ob'].
  destruct Hm as ([Hbids Hasks Hidx Hspread] & Hres & _ & _ & Hid & Hp).
  cbn [Order.id Order.price] in *.
  case_bool_decide as Hq; [|done]. cbn [snd]. specialize (Hres Hq).
  rewrite Hp.
  split; cbn [bids asks order_index].
  - destruct is_bid; [|done]. by apply (ladder_push_wf true).
  - destruct is_bid; [done|]. by apply (ladder_push_wf false).
  - intros id p side Hl. apply lookup_insert_Some in Hl as [[<- [= <- <-]]|[Hne Hl]].
    + destruct (ladder_push_has is_bid price inc' (ladder_of is_bid ob'))
        as [level Hin].
      exists (level ++ [inc']). split.
      * by destruct is_bid.
      * rewrite fmap_app, elem_of_app. right. cbn. rewrite Hid.
        apply list_elem_of_here.
    + destruct (Hidx id p side Hl) as (level & Hin & Hidl).
      destruct (decide (side = is_bid)) as [->|Hside].
      * destruct (ladder_push_elem (comp_of is_bid) price inc'
                    (ladder_of is_bid ob') p level Hin)
          as (level' & Hin' & [tail ->]).
        exists (level ++ tail). split; [by destruct is_bid|].
        rewrite fmap_app, elem_of_app. by left.
      * exists level. split; [|done].
        by destruct side, is_bid.
  - intros pb pa Hb Ha. rewrite Forall_forall in Hres.
    destruct is_bid; cbn [ladder_of negb] in *.
    + apply (ladder_push_keys true) in Hb as [->|Hb]; [|by apply Hspread].
      apply list_elem_of_fmap in Ha as ([pa' la] & -> & Ha).
      specialize (Hres _ Ha). by apply crosses_false in Hres.
    + apply (ladder_push_keys false) in Ha as [->|Ha]; [|by apply Hspread].
      apply list_elem_of_fmap in Hb as ([pb' lb] & -> & Hb).
      specialize (Hres _ Hb). by apply crosses_false in Hres.
Qed.

Lemma erase_index_wf id ob : book_wf ob → book_wf (erase_index id ob).
Proof.
  intros [Hbids Hasks Hidx Hspread]. split; [done..| |done].
  intros id' p side Hl. cbn [erase_index order_index] in Hl.
  apply lookup_delete_Some in Hl as [_ Hl]. by apply Hidx.
Qed.

Lemma ladder_of_set_ladder_eq is_bid m ob :
  ladder_of is_bid (set_ladder is_bid m ob) = m.
Proof. by destruct is_bid. Qed.

Lemma ladder_of_set_ladder_ne is_bid m ob :
  ladder_of (negb is_bid) (set_ladder is_bid m ob)
  = ladder_of (negb is_bid) ob.
Proof. by destruct is_bid. Qed.

Lemma ladder_of_wf is_bid ob : book_wf ob → ladder_wf is_bid (ladder_of is_bid ob).
Proof. intros [? ? _ _]. by destruct is_bid. Qed.

Lemma cancel_wf id ob : book_wf ob → book_wf (cancel id ob).2.
Proof.
  intros Hwf. rewrite cancel_unfold.
  destruct (order_index ob !! id) as [[price is_bid]|] eqn:El; [|done].
  destruct (ladder_find _ price _) as [level|] eqn:Ef;
    [|by apply erase_index_wf].
  destruct (level_scan id level) as [i|] eqn:Es;
    [|by apply erase_index_wf].
  cbn [snd]. apply level_scan_Some in Es as (o & Hi & Hido).
  pose proof (ladder_of_wf is_bid ob Hwf) as Hlw.
  pose proof (ladder_find_elem _ _ _ _ Ef) as Hin.
  assert (Hlevel : level_wf price level).
  { destruct Hlw as [_ Hall]. rewrite Forall_forall in Hall.
    by apply (Hall (price, level)). }
  assert (Hstore : ladder_wf is_bid
            (ladder_store (comp_of is_bid) price (delete i level)
               (ladder_of is_bid ob))).
  { apply ladder_store_wf; [done|].
    destruct (delete i level) as [|o' l'] eqn:Ed; [by left|right].
    split; [done|]. rewrite <-Ed. apply Forall_delete. by destruct Hlevel. }
  destruct Hwf as [Hbids Hasks Hidx Hspread].
  split; cbn [set_ladder erase_index bids asks order_index].
  - by destruct is_bid.
  - by destruct is_bid.
  - intros id' p side [Hne Hl]%lookup_delete_Some.
    destruct (Hidx id' p side Hl) as (level' & Hin' & Hid').
    destruct (decide (side = is_bid)) as [->|Hside].
    + rewrite ladder_of_set_ladder_eq.
      destruct (ladder_store_keeps is_bid price level (delete i level)
                  _ _ Ef Hin') as [[= -> ->]|Hkept].
      * exists (delete i level).
        assert (Hid'' : id' ∈ Order.id <$> delete i level).
        { eapply level_ids_delete; [done|congruence|done]. }
        split; [|done]. apply (ladder_store_new _ _ level); [done|].
        intros Hnil. rewrite Hnil in Hid''. by apply elem_of_nil in Hid''.
      * by exists level'.
    + exists level'. split; [|done].
      assert (side = negb is_bid) as -> by (by destruct side, is_bid).
      by rewrite ladder_of_set_ladder_ne.
  - intros pb pa Hb Ha. apply Hspread.
    + destruct is_bid; [|done].
      eapply elem_of_sublist; [exact Hb|apply (ladder_store_keys true)].
    + destruct is_bid; [done|].
      eapply elem_of_sublist; [exact Ha|apply (ladder_store_keys false)].
Qed.

Lemma step_wf o ob : book_wf ob → book_wf (step o ob).
Proof.
  destruct o; cbn [step]; intros Hwf.
  - by apply add_limit_wf.
  - by apply add_market_wf.
  - by apply cancel_wf.
  - apply clear_wf.
Qed.

Lemma run_wf ops ob : book_wf ob → book_wf (run ops ob).
Proof.
  revert ob. induction ops as [|o ops IH]; intros ob Hwf; [done|].
  cbn. by apply IH, step_wf.
Qed.

Lemma reachable_wf ob : reachable ob → book_wf ob.
Proof. intros [ops ->]. apply run_wf, empty_book_wf. Qed.

(** ** No crossed book *)



(** The best bid is the highest bid price and the best ask the lowest ask
    price, and a ladder is non-empty only if an order rests in it. *)
Lemma best_bid_highest ob pb x :
  reachable ob → best_bid ob = Some pb → x ∈ (bids ob).*1 → (x ≤ pb)%Qc.
Proof.
  intros [[Hs _] _ _ _]%reachable_wf Hb Hx. unfold best_bid in Hb.
  destruct (bids ob) as [|[p l] m]; [done|]. injection Hb as <-.
  cbn in Hs, Hx. apply StronglySorted_cons in Hs as [Hall _].
  apply elem_of_cons in Hx as [->|Hx]; [apply Qcle_refl|].
  rewrite Forall_forall in Hall. apply Qclt_le_weak. by apply Hall.
Qed.

Lemma best_ask_lowest ob pa x :
  reachable ob → best_ask ob = Some pa → x ∈ (asks ob).*1 → (pa ≤ x)%Qc.
Proof.
  intros [_ [Hs _] _ _]%reachable_wf Ha Hx. unfold best_ask in Ha.
  destruct (asks ob) as [|[p l] m]; [done|]. injection Ha as <-.
  cbn in Hs, Hx. apply StronglySorted_cons in Hs as [Hall _].
  apply elem_of_cons in Hx as [->|Hx]; [apply Qcle_refl|].
  rewrite Forall_forall in Hall. apply Qclt_le_weak. by apply Hall.
Qed.

(** ** Rejection of non-positive quantities *)

(** C7.  For every price, side and state, a quantity [q ≤ 0] makes both
    [add_limit] and [add_market] return the id 0 and leave the whole state
    as it was, [next_id] included. *)
Theorem invalid_quantity_rejected price q is_bid ob :
  q ≤ 0 →
  add_limit price q is_bid ob = (0, ob) ∧ add_market q is_bid ob = (0, ob).
Proof.
  intros Hq. unfold add_limit, add_market.
  by rewrite bool_decide_eq_true_2.
Qed.

Lemma invalid_quantity_rejected_witness :
  -10 ≤ 0 ∧
  add_limit (px 100 1) (-10) true (run no_matching empty_book)
    = (0, run no_matching empty_book) ∧
  add_market (-10) true (run no_matching empty_book)
    = (0, run no_matching empty_book).
Proof.
  assert (H : -10 ≤ 0) by lia.
  split; [exact H|].
  exact (invalid_quantity_rejected (px 100 1) (-10) true
           (run no_matching empty_book) H).
Defined.

(** ** Cancellation *)






(** ** Trade records *)

Lemma make_trade_of is_bid inc book lp level r tq :
  (lp, level) ∈ book → r ∈ level →
  crosses is_bid lp (Order.price inc) = true →
  trade_of is_bid inc book
    (make_trade is_bid (Order.id inc) (Order.id r) lp tq).
Proof.
  intros Hin Hr Hx. exists lp, level, r.
  split_and!; [done..| | |]; by destruct is_bid.
Qed.

Lemma level_outcome_trades is_bid inc book lp q level idx q' level' idx' ts :
  level_outcome is_bid (Order.id inc) lp q level idx (q', level', idx', ts) →
  (lp, level) ∈ book →
  crosses is_bid lp (Order.price inc) = true →
  Forall (trade_of is_bid inc book) ts.
Proof.
  inversion 1 as [filled rest_ Hlv Hstop Hpos|filled r rest_ Hlv Hpart];
    subst; intros Hin Hx.
  - apply Forall_fmap, Forall_forall. intros r Hr.
    eapply make_trade_of; [exact Hin| |done].
    apply elem_of_app. by left.
  - apply Forall_app. split.
    + apply Forall_fmap, Forall_forall. intros r' Hr.
      eapply make_trade_of; [exact Hin| |done].
      apply elem_of_app. by left.
    + repeat constructor.
      eapply make_trade_of; [exact Hin| |done].
      apply elem_of_app. right. apply list_elem_of_here.
Qed.

Lemma sweep_trades_of is_bid inc book swept :
  (∀ e, e ∈ swept → e ∈ book) →
  Forall (λ e, crosses is_bid e.1 (Order.price inc) = true) swept →
  Forall (trade_of is_bid inc book) (sweep_trades is_bid (Order.id inc) swept).
Proof.
  intros Hsub Hx. apply Forall_forall. intros t Ht.
  apply list_elem_of_bind in Ht as ([lp level] & Ht & He). cbn in Ht.
  apply list_elem_of_fmap in Ht as (r & -> & Hr).
  rewrite Forall_forall in Hx.
  apply (make_trade_of _ _ _ lp level); [by apply Hsub|done|].
  by apply (Hx (lp, level)).
Qed.

Lemma book_outcome_trades is_bid inc q book idx q' book' idx' ts :
  book_outcome is_bid (Order.id inc) (Order.price inc) q book idx
    (q', book', idx', ts) →
  Forall (trade_of is_bid inc book) ts.
Proof.
  inversion 1 as [swept rest_ Hb Hsw Hstop Hpos
                 |swept lp level rest_ q1 level1 idx1 ts1
                    Hb Hsw Hx Hq Hl Hne Hz]; subst.
  - apply sweep_trades_of; [|done]. intros e He. apply elem_of_app. by left.
  - apply Forall_app. split.
    + apply sweep_trades_of; [|done]. intros e He. apply elem_of_app. by left.
    + eapply level_outcome_trades; [exact Hl| |done].
      apply elem_of_app. right. apply list_elem_of_here.
Qed.

(** C4.  Matching only appends to the trade log, and every trade it appends
    was made with an order resting in the opposing ladder: the trade's price
    is the price of that order and of its level (which the incoming order's
    limit crosses), its [buyer_id] is the id of the buy-side order and its
    [seller_id] the id of the sell-side order, whichever of the two is the
    incoming one. *)
Theorem trade_record_correctness inc is_bid ob :
  book_wf ob →
  ∃ new,
    trades (match_ inc is_bid ob).2 = trades ob ++ new ∧
    Forall (λ t,
      ∃ lp level r,
        (lp, level) ∈ ladder_of (negb is_bid) ob ∧ r ∈ level ∧
        crosses is_bid lp (Order.price inc) = true ∧
        Trade.price t = lp ∧ Trade.price t = Order.price r ∧
        Trade.buyer_id t = (if is_bid then Order.id inc else Order.id r) ∧
        Trade.seller_id t = (if is_bid then Order.id r else Order.id inc))
      new.
Proof.
  intros Hwf. rewrite match_unfold.
  outer_loop Hout q book' idx' ts.
  exists ts. split; [done|].
  apply book_outcome_trades in Hout.
  eapply Forall_impl; [exact Hout|].
  intros t (lp & level & r & Hin & Hr & Hx & Hp & Hb & Hs).
  exists lp, level, r. split_and!; try done.
  destruct (ladder_of_wf (negb is_bid) ob Hwf) as [_ Hall].
  rewrite Forall_forall in Hall. destruct (Hall _ Hin) as [_ Hlevel].
  rewrite Forall_forall in Hlevel. destruct (Hlevel _ Hr) as [_ ->]. done.
Qed.

Lemma trade_record_correctness_witness :
  book_wf (run three_asks empty_book) ∧
  ∃ new,
    trades (match_ (Order.mk 4 (px 101 1) 120) true
              (run three_asks empty_book)).2
      = trades (run three_asks empty_book) ++ new ∧
    Forall (λ t,
      ∃ lp level r,
        (lp, level) ∈ ladder_of (negb true) (run three_asks empty_book) ∧
        r ∈ level ∧
        crosses true lp (Order.price (Order.mk 4 (px 101 1) 120)) = true ∧
        Trade.price t = lp ∧ Trade.price t = Order.price r ∧
        Trade.buyer_id t = Order.id (Order.mk 4 (px 101 1) 120) ∧
        Trade.seller_id t = Order.id r)
      new.
Proof.
  assert (H : book_wf (run three_asks empty_book))
    by (apply run_wf, empty_book_wf).
  split; [exact H|].
  exact (trade_record_correctness (Order.mk 4 (px 101 1) 120) true _ H).
Defined.

(** A bid with a limit of 101 against asks resting at 100 trades at 100. *)
Example price_improvement :
  trades (run (three_asks ++ [AddLimit (px 101 1) 120 true]) empty_book)
  = [Trade.mk 4 1 (px 100 1) 50; Trade.mk 4 2 (px 100 1) 50;
     Trade.mk 4 3 (px 100 1) 20].
Proof. vm_compute. reflexivity. Qed.

(** An incoming ask is the seller, the resting bid the buyer. *)
Example seller_is_sell_side :
  trades (run (no_matching ++ [AddLimit (px 99 1) 20 false]) empty_book)
  = [Trade.mk 1 3 (px 100 1) 20].
Proof. vm_compute. reflexivity. Qed.

(** ** Price-time priority *)


(** The same on the whole book: matching leaves every queue of the opposing
    ladder that it does not erase with the ids it had, in the order they
    had, less a front part. *)
Lemma match_keeps_queue_order inc is_bid ob lp level' :
  (lp, level') ∈ ladder_of (negb is_bid) (match_ inc is_bid ob).2 →
  ∃ level,
    (lp, level) ∈ ladder_of (negb is_bid) ob ∧
    (Order.id <$> level') `suffix_of` (Order.id <$> level).
Proof.
  rewrite match_unfold.
  outer_loop Hout q book' idx' ts. cbn [snd].
  assert (ladder_of (negb is_bid)
            {| bids := if is_bid then bids ob else book';
               asks := if is_bid then book' else asks ob;
               order_index := idx';
               trades := trades ob ++ ts; next_id := next_id ob |} = book')
    as -> by (by destruct is_bid).
  generalize dependent (ladder_of (negb is_bid) ob). intros book Hout Hin.
  inversion Hout as [swept rest_ Hb Hsw Hstop Hpos
                    |swept lp1 level rest_ q1 level1 idx1 ts1
                       Hb Hsw Hx Hq Hl Hne Hz]; subst.
  - exists level'. split; [|done]. apply elem_of_app. by right.
  - apply elem_of_cons in Hin as [[= -> ->]|Hin].
    + exists level. split; [apply elem_of_app; right; apply list_elem_of_here|].
      inversion Hl as [filled rest1 Hlv Hs1 Hp1|filled r rest1 Hlv Hpart];
        subst; rewrite fmap_app; by apply suffix_app_r.
    + exists level'. split; [|done].
      apply elem_of_app. right. by apply list_elem_of_further.
Qed.

(** Orders submitted at one price queue up in the order of submission. *)
Example three_asks_queue :
  asks (run three_asks empty_book)
  = [(px 100 1, [Order.mk 1 (px 100 1) 50; Order.mk 2 (px 100 1) 50;
                 Order.mk 3 (px 100 1) 50])].
Proof. vm_compute. reflexivity. Qed.

(** The FIFO scenario of the test suite: of three asks at one price, a bid
    for the quantity of one trades with the first only; a larger bid goes
    through them in arrival order. *)
Example fifo_priority_first :
  trades (run (three_asks ++ [AddLimit (px 100 1) 50 true]) empty_book)
  = [Trade.mk 4 1 (px 100 1) 50].
Proof. vm_compute. reflexivity. Qed.

Example fifo_priority_order :
  trades (run (three_asks ++ [AddLimit (px 100 1) 120 true]) empty_book)
  = [Trade.mk 4 1 (px 100 1) 50; Trade.mk 4 2 (px 100 1) 50;
     Trade.mk 4 3 (px 100 1) 20].
Proof. vm_compute. reflexivity. Qed.

(** ** Market orders *)

(** A market order whose synthetic price crosses every level of the
    opposing ladder goes on until its quantity is used up or the ladder is
    empty. *)
Lemma market_order_sweeps qty is_bid ob :
  0 < qty →
  Forall (λ e, crosses is_bid e.1 (market_price is_bid) = true)
    (ladder_of (negb is_bid) ob) →
  dropped (account (AddMarket qty is_bid) ob) = 0 ∨
  ladder_of (negb is_bid) (add_market qty is_bid ob).2 = [].
Proof.
  intros Hq Hall. unfold account, add_market.
  rewrite bool_decide_eq_false_2 by lia. rewrite match_unfold.
  cbn [Order.id Order.price Order.qty].
  outer_loop Hout q book' idx' ts.
  cbn [fst snd dropped Order.with_qty Order.qty].
  assert (ladder_of (negb is_bid)
            {| bids := if is_bid then bids (bump_next_id ob) else book';
               asks := if is_bid then book' else asks (bump_next_id ob);
               order_index := idx';
               trades := trades (bump_next_id ob) ++ ts;
               next_id := next_id (bump_next_id ob) |} = book')
    as -> by (by destruct is_bid).
  assert (ladder_of (negb is_bid) (bump_next_id ob)
          = ladder_of (negb is_bid) ob) as Hsame by (by destruct is_bid).
  rewrite Hsame in Hout. clear Hsame.
  inversion Hout as [swept rest_ Hb Hsw Hstop Hpos
                    |swept lp1 level rest_ q1 level1 idx1 ts1
                       Hb Hsw Hx Hq1 Hl Hne Hz]; subst; [|by left].
  destruct Hstop as [?|[->|(e & rest' & -> & Hx)]]; [left; lia|by right|].
  rewrite Hb, Forall_app, Forall_cons in Hall.
  destruct Hall as (_ & He & _). congruence.
Qed.

(** C5 fails on the code.  The synthetic price of a market buy is 1e9 and
    that of a market sell is 0: with an ask resting at 2e9, a market buy
    for 5 trades nothing and is dropped whole while the ask stays in the
    book; so is a market sell when the only bid rests at -1. *)
Theorem market_order_skips_far_levels :
  add_market 5 true (run far_ask empty_book)
    = (2, bump_next_id (run far_ask empty_book)) ∧
  asks (run far_ask empty_book)
    = [(px 2000000000 1, [Order.mk 1 (px 2000000000 1) 10])] ∧
  dropped (account (AddMarket 5 true) (run far_ask empty_book)) = 5 ∧
  add_market 5 false (run far_bid empty_book)
    = (2, bump_next_id (run far_bid empty_book)) ∧
  bids (run far_bid empty_book)
    = [(px (-1) 1, [Order.mk 1 (px (-1) 1) 10])] ∧
  dropped (account (AddMarket 5 false) (run far_bid empty_book)) = 5.
Proof. vm_compute. done. Qed.

(** The market-order scenario of the test suite: 250 against three asks of
    100 takes the first two levels and 50 of the third. *)
Example market_sweep :
  let ob := run [AddLimit (px 100 1) 100 false; AddLimit (px 201 2) 100 false;
                 AddLimit (px 101 1) 100 false; AddMarket 250 true]
              empty_book in
  trades ob = [Trade.mk 4 1 (px 100 1) 100; Trade.mk 4 2 (px 201 2) 100;
               Trade.mk 4 3 (px 101 1) 50] ∧
  asks ob = [(px 101 1, [Order.mk 3 (px 101 1) 50])] ∧
  total_orders ob = 1%nat.
Proof. vm_compute. done. Qed.

(** ** The cost of a cancel *)

(** The loop of [cancel] looks at the orders of the queue one by one, up to
    and including the one it erases. *)
Lemma cancel_scan_steps_position id ob p is_bid :
  book_wf ob →
  order_index ob !! id = Some (p, is_bid) →
  ∃ level i,
    (p, level) ∈ ladder_of is_bid ob ∧
    level_scan id level = Some i ∧
    cancel_scan_steps id ob = S i.
Proof.
  intros Hwf El. unfold cancel_scan_steps. rewrite El.
  destruct (wf_index ob Hwf id p is_bid El) as (level & Hin & Hid).
  rewrite (ladder_find_wf is_bid p _ level); [|by apply ladder_of_wf|done].
  destruct (level_scan_elem id level Hid) as [i Hi]. rewrite Hi.
  by exists level, i.
Qed.

(** C9 fails on the code.  With three asks resting at one price, [cancel] of
    the third walks the queue of that level from the front and looks at all
    three orders before it erases the one it was asked for. *)
Theorem cancel_walks_the_queue :
  (cancel 3 (run three_asks empty_book)).1 = true ∧
  cancel_scan_steps 1 (run three_asks empty_book) = 1%nat ∧
  cancel_scan_steps 2 (run three_asks empty_book) = 2%nat ∧
  cancel_scan_steps 3 (run three_asks empty_book) = 3%nat.
Proof. vm_compute. done. Qed.

(** ** Identifiers in use *)

Lemma ladder_orders_app m1 m2 :
  ladder_orders (m1 ++ m2) = ladder_orders m1 ++ ladder_orders m2.
Proof. unfold ladder_orders. apply bind_app. Qed.

Lemma ladder_ids_cons lp level m :
  ladder_ids ((lp, level) :: m) = (Order.id <$> level) ++ ladder_ids m.
Proof. unfold ladder_ids. by rewrite ladder_orders_cons, fmap_app. Qed.

Lemma ladder_ids_app m1 m2 :
  ladder_ids (m1 ++ m2) = ladder_ids m1 ++ ladder_ids m2.
Proof. unfold ladder_ids. by rewrite ladder_orders_app, fmap_app. Qed.

Lemma ladder_ids_elem id m :
  id ∈ ladder_ids m ↔ ∃ lp level, (lp, level) ∈ m ∧ id ∈ Order.id <$> level.
Proof.
  unfold ladder_ids, ladder_orders. split.
  - intros (o & -> & Ho)%list_elem_of_fmap.
    apply list_elem_of_bind in Ho as ([lp level] & Ho & He).
    exists lp, level. split; [done|]. by apply list_elem_of_fmap_2.
  - intros (lp & level & He & (o & -> & Ho)%list_elem_of_fmap).
    apply list_elem_of_fmap_2. apply list_elem_of_bind. by exists (lp, level).
Qed.

Lemma resting_ids_side id ob :
  id ∈ resting_ids ob ↔ ∃ is_bid, id ∈ ladder_ids (ladder_of is_bid ob).
Proof.
  unfold resting_ids. rewrite elem_of_app. split.
  - intros [?|?]; [by exists true|by exists false].
  - intros [[] ?]; [by left|by right].
Qed.

Lemma level_outcome_ids is_bid inc_id lp q level idx q' level' idx' ts id :
  level_outcome is_bid inc_id lp q level idx (q', level', idx', ts) →
  id ∈ Order.id <$> level' → id ∈ Order.id <$> level.
Proof.
  inversion 1 as [filled rest_ Hlv Hstop Hpos|filled r rest_ Hlv Hpart]; subst;
    rewrite fmap_app, elem_of_app; by right.
Qed.

Lemma book_outcome_ids is_bid inc_id p q book idx q' book' idx' ts id :
  book_outcome is_bid inc_id p q book idx (q', book', idx', ts) →
  id ∈ ladder_ids book' → id ∈ ladder_ids book.
Proof.
  inversion 1 as [swept rest_ Hb Hsw Hstop Hpos
                 |swept lp level rest_ q1 level1 idx1 ts1
                    Hb Hsw Hx Hq Hl Hne Hz]; subst.
  - rewrite ladder_ids_app, elem_of_app. by right.
  - rewrite ladder_ids_app, !ladder_ids_cons, !elem_of_app.
    intros [Hin|Hin]; right; [left|by right].
    by eapply level_outcome_ids.
Qed.

(** Matching puts no id in use. *)
Lemma match_ids inc is_bid ob id :
  id_in_use id (match_ inc is_bid ob).2 → id_in_use id ob.
Proof.
  rewrite match_unfold.
  outer_loop Hout q book' idx' ts. cbn [snd].
  destruct (book_outcome_index _ _ _ _ _ _ _ _ _ _ Hout) as (popped & -> & _).
  unfold id_in_use. cbn [order_index]. intros [[v Hv]|Hin].
  - left. apply erase_ids_lookup_Some in Hv as [Hv _]. eauto.
  - right. apply resting_ids_side in Hin as [side Hin].
    apply resting_ids_side. exists side.
    destruct (decide (side = is_bid)) as [->|Hside].
    + by destruct is_bid.
    + assert (side = negb is_bid) as -> by (by destruct side, is_bid).
      eapply book_outcome_ids; [exact Hout|]. by destruct is_bid.
Qed.

Lemma match_next_id inc is_bid ob :
  next_id (match_ inc is_bid ob).2 = next_id ob.
Proof.
  rewrite match_unfold. by destruct (match_book _ _ _ _ _ _) as [[[? ?] ?] ?].
Qed.

Lemma match_inc_id inc is_bid ob :
  Order.id (match_ inc is_bid ob).1 = Order.id inc.
Proof.
  rewrite match_unfold. by destruct (match_book _ _ _ _ _ _) as [[[? ?] ?] ?].
Qed.

Lemma match_inc_price inc is_bid ob :
  Order.price (match_ inc is_bid ob).1 = Order.price inc.
Proof.
  rewrite match_unfold. by destruct (match_book _ _ _ _ _ _) as [[[? ?] ?] ?].
Qed.

Lemma ladder_push_ids is_bid k o m id :
  id ∈ ladder_ids (ladder_push (comp_of is_bid) k o m) ↔
  id = Order.id o ∨ id ∈ ladder_ids m.
Proof.
  induction m as [|[k' l'] m IH]; cbn [ladder_push].
  - rewrite ladder_ids_cons.
    change (Order.id <$> [o]) with [Order.id o].
    by rewrite elem_of_app, list_elem_of_singleton.
  - destruct (comp_of is_bid k k').
    { rewrite (ladder_ids_cons k [o]).
      change (Order.id <$> [o]) with [Order.id o].
      by rewrite elem_of_app, list_elem_of_singleton. }
    destruct (comp_of is_bid k' k).
    + rewrite !ladder_ids_cons, !elem_of_app, IH. tauto.
    + rewrite !ladder_ids_cons, fmap_app, !elem_of_app.
      change (Order.id <$> [o]) with [Order.id o].
      rewrite list_elem_of_singleton. tauto.
Qed.

Lemma ladder_store_ids is_bid k level i m id :
  ladder_find (comp_of is_bid) k m = Some level →
  id ∈ ladder_ids (ladder_store (comp_of is_bid) k (delete i level) m) →
  id ∈ ladder_ids m.
Proof.
  intros Hf (lp & level' & He & Hid)%ladder_ids_elem.
  apply ladder_ids_elem.
  apply ladder_store_elem in He as [He|[[= -> ->] _]].
  - by exists lp, level'.
  - exists k, level. split; [by eapply ladder_find_elem|].
    rewrite list_fmap_delete in Hid. by eapply list_elem_of_delete_inv.
Qed.

Lemma id_in_use_bump id ob : id_in_use id (bump_next_id ob) ↔ id_in_use id ob.
Proof. done. Qed.

(** A market order puts no id in use. *)
Lemma add_market_ids qty is_bid ob id :
  id_in_use id (add_market qty is_bid ob).2 → id_in_use id ob.
Proof.
  unfold add_market. case_bool_decide as Hq; [done|].
  pose proof (match_ids (Order.mk (next_id ob) (market_price is_bid) qty)
                is_bid (bump_next_id ob) id) as Hm.
  destruct (match_ _ _ _) as [inc' ob']. cbn [snd] in *.
  intros Hin. by apply id_in_use_bump, Hm.
Qed.

(** A limit order puts at most its own id in use. *)
Lemma add_limit_ids price qty is_bid ob id :
  id_in_use id (add_limit price qty is_bid ob).2 →
  id_in_use id ob ∨ (0 < qty ∧ id = next_id ob).
Proof.
  unfold add_limit. case_bool_decide as Hq; [by left|].
  pose proof (match_ids (Order.mk (next_id ob) price qty)
                is_bid (bump_next_id ob) id) as Hm.
  pose proof (match_inc_id (Order.mk (next_id ob) price qty)
                is_bid (bump_next_id ob)) as Hid.
  destruct (match_ _ _ _) as [inc' ob']. cbn [fst snd Order.id] in *.
  case_bool_decide as Hr; cbn [snd]; [|by left; apply id_in_use_bump, Hm].
  unfold id_in_use at 1. cbn [order_index].
  intros [[v Hv]|Hin].
  - apply lookup_insert_Some in Hv as [[<- _]|[Hne Hv]]; [right; lia|].
    left. apply id_in_use_bump, Hm. left. eauto.
  - apply resting_ids_side in Hin as [side Hin].
    assert (id = next_id ob ∨ id ∈ ladder_ids (ladder_of side ob'))
      as [->|Hin'].
    { destruct is_bid, side; cbn [ladder_of bids asks] in Hin; auto.
      - apply (ladder_push_ids true) in Hin as [->|?]; [left|right]; done.
      - apply (ladder_push_ids false) in Hin as [->|?]; [left|right]; done. }
    + right. lia.
    + left. apply id_in_use_bump, Hm. right.
      apply resting_ids_side. by exists side.
Qed.

(** A cancel puts no id in use. *)
Lemma cancel_ids id0 ob id :
  id_in_use id (cancel id0 ob).2 → id_in_use id ob.
Proof.
  rewrite cancel_unfold.
  assert (Herase : id_in_use id (erase_index id0 ob) → id_in_use id ob).
  { intros [[v Hv]|Hin]; [left|by right].
    cbn [erase_index order_index] in Hv.
    apply lookup_delete_Some in Hv as [_ Hv]. eauto. }
  destruct (order_index ob !! id0) as [[price is_bid]|] eqn:El; [|done].
  destruct (ladder_find _ price _) as [level|] eqn:Ef; [|done].
  destruct (level_scan id0 level) as [i|] eqn:Es; [|done].
  cbn [snd]. intros [[v Hv]|Hin].
  - apply Herase. by left; eauto.
  - right. apply resting_ids_side in Hin as [side Hin].
    apply resting_ids_side. exists side.
    destruct (decide (side = is_bid)) as [->|Hside].
    + rewrite ladder_of_set_ladder_eq in Hin. by eapply ladder_store_ids.
    + assert (side = negb is_bid) as -> by (by destruct side, is_bid).
      by rewrite ladder_of_set_ladder_ne in Hin.
Qed.

Lemma clear_ids ob id : ¬ id_in_use id (clear ob).
Proof.
  intros [[v Hv]|Hin].
  - cbn in Hv. by rewrite lookup_empty in Hv.
  - by apply elem_of_nil in Hin.
Qed.

(** ** Issuing identifiers *)

Lemma add_limit_issue price qty is_bid ob :
  0 < qty →
  (add_limit price qty is_bid ob).1 = next_id ob ∧
  next_id (add_limit price qty is_bid ob).2 = uint64_succ (next_id ob).
Proof.
  intros Hq. unfold add_limit. rewrite bool_decide_eq_false_2 by lia.
  pose proof (match_next_id (Order.mk (next_id ob) price qty) is_bid
                (bump_next_id ob)) as Hn.
  destruct (match_ _ _ _) as [inc' ob']. cbn [snd] in Hn.
  by case_bool_decide.
Qed.

Lemma add_market_issue qty is_bid ob :
  0 < qty →
  (add_market qty is_bid ob).1 = next_id ob ∧
  next_id (add_market qty is_bid ob).2 = uint64_succ (next_id ob).
Proof.
  intros Hq. unfold add_market. rewrite bool_decide_eq_false_2 by lia.
  pose proof (match_next_id (Order.mk (next_id ob) (market_price is_bid) qty)
                is_bid (bump_next_id ob)) as Hn.
  pose proof (match_inc_id (Order.mk (next_id ob) (market_price is_bid) qty)
                is_bid (bump_next_id ob)) as Hi.
  by destruct (match_ _ _ _) as [inc' ob'].
Qed.

Lemma cancel_next_id id ob : next_id (cancel id ob).2 = next_id ob.
Proof.
  rewrite cancel_unfold.
  destruct (order_index ob !! id) as [[price is_bid]|]; [|done].
  destruct (ladder_find _ price _) as [level|]; [|done].
  by destruct (level_scan id level).
Qed.

(** A call either leaves [next_id] alone and puts no id in use, or issues
    the id [next_id] and steps the counter. *)
Lemma step_issue o ob :
  (next_id (step o ob) = next_id ob ∧
   (∀ id, id_in_use id (step o ob) → id_in_use id ob) ∧
   (∀ id, returned_id o ob = Some id → id = 0))
  ∨
  (next_id (step o ob) = uint64_succ (next_id ob) ∧
   (∀ id, id_in_use id (step o ob) → id_in_use id ob ∨ id = next_id ob) ∧
   (∀ id, returned_id o ob = Some id → id = next_id ob)).
Proof.
  destruct o as [price qty is_bid|qty is_bid|id0|]; cbn [step returned_id].
  - destruct (decide (0 < qty)) as [Hq|Hq].
    + right. destruct (add_limit_issue price qty is_bid ob Hq) as [H1 H2].
      split_and!; [done| |congruence].
      intros id [?|[_ ?]]%add_limit_ids; auto.
    + left. unfold add_limit. rewrite bool_decide_eq_true_2 by lia.
      split_and!; [done..|]. cbn. congruence.
  - destruct (decide (0 < qty)) as [Hq|Hq].
    + right. destruct (add_market_issue qty is_bid ob Hq) as [H1 H2].
      split_and!; [done| |congruence].
      intros id ?%add_market_ids; auto.
    + left. unfold add_market. rewrite bool_decide_eq_true_2 by lia.
      split_and!; [done..|]. cbn. congruence.
  - left. split_and!; [apply cancel_next_id| |done].
    intros id. apply cancel_ids.
  - left. split_and!; [done| |done].
    intros id Hin. by apply clear_ids in Hin.
Qed.

Lemma uint64_succ_small x : 0 ≤ x → x + 1 < UINT64_MOD → uint64_succ x = x + 1.
Proof. intros. unfold uint64_succ. apply Z.mod_small. lia. Qed.

(** As long as the counter does not wrap around, the ids in use and the ids
    returned are those issued so far. *)
Lemma run_issue ops ob :
  1 ≤ next_id ob →
  next_id ob + Z.of_nat (length ops) < UINT64_MOD →
  next_id ob ≤ next_id (run ops ob) ≤ next_id ob + Z.of_nat (length ops) ∧
  (∀ id, id_in_use id (run ops ob) →
     id_in_use id ob ∨ next_id ob ≤ id < next_id (run ops ob)) ∧
  (∀ id, id ∈ returned_ids ops ob →
     id = 0 ∨ next_id ob ≤ id < next_id (run ops ob)).
Proof.
  revert ob. induction ops as [|o ops IH]; intros ob Hlo Hhi.
  - cbn. split; [lia|]. split; [auto|]. by intros id ?%elem_of_nil.
  - cbn [run returned_ids]. rewrite length_cons, Nat2Z.inj_succ in Hhi |- *.
    assert (Hsucc : uint64_succ (next_id ob) = next_id ob + 1)
      by (apply uint64_succ_small; lia).
    destruct (step_issue o ob) as [(Hn & Huse & Hret)|(Hn & Huse & Hret)].
    + destruct (IH (step o ob)) as (Hb & Huse' & Hret'); [lia..|].
      rewrite Hn in *. split; [lia|]. split.
      * intros id [?|?]%Huse'; [left|right]; auto.
      * intros id [Hid|Hid]%elem_of_app; [|by apply Hret'].
        left. apply Hret. destruct (returned_id o ob); cbn in Hid;
          [|by apply elem_of_nil in Hid].
        by apply list_elem_of_singleton in Hid as ->.
    + rewrite Hsucc in Hn.
      destruct (IH (step o ob)) as (Hb & Huse' & Hret'); [lia..|].
      rewrite Hn in *. split; [lia|]. split.
      * intros id [[?| ->]%Huse|?]%Huse'; [by left|right; lia|right; lia].
      * intros id [Hid|Hid]%elem_of_app.
        -- right. destruct (returned_id o ob) as [id'|]; cbn in Hid;
             [|by apply elem_of_nil in Hid].
           apply list_elem_of_singleton in Hid as ->.
           rewrite (Hret id' eq_refl). lia.
        -- destruct (Hret' id Hid) as [?|?]; [by left|right; lia].
Qed.

Lemma empty_book_unused id : ¬ id_in_use id empty_book.
Proof.
  intros [[v Hv]|Hin].
  - cbn in Hv. by rewrite lookup_empty in Hv.
  - by apply elem_of_nil in Hin.
Qed.

Lemma run_app ops1 ops2 ob : run (ops1 ++ ops2) ob = run ops2 (run ops1 ob).
Proof. revert ob. induction ops1 as [|o ops1 IH]; intros ob; cbn; auto. Qed.

(** ** Market orders never rest *)

(** C6 (as amended).  As long as the 64-bit id counter has not wrapped
    around (fewer than 2^64 - 1 calls in all), the id returned by an
    [add_market] call is not a key of the order index and not the id of any
    order in either ladder, right after the call and after any further
    calls. *)
Theorem market_order_never_rests ops1 qty is_bid ops2 :
  Z.of_nat (length ops1 + 1 + length ops2) < UINT64_MOD - 1 →
  order_index
    (run ops2 (add_market qty is_bid (run ops1 empty_book)).2)
    !! (add_market qty is_bid (run ops1 empty_book)).1 = None ∧
  (add_market qty is_bid (run ops1 empty_book)).1
    ∉ resting_ids (run ops2 (add_market qty is_bid (run ops1 empty_book)).2).
Proof.
  intros Hlen. rewrite !Nat2Z.inj_add in Hlen.
  change (next_id empty_book) with 1.
  destruct (run_issue ops1 empty_book) as (Hb1 & Huse1 & _);
    [cbn; lia..|].
  change (next_id empty_book) with 1 in *.
  set (ob1 := run ops1 empty_book) in *.
  pose proof (step_issue (AddMarket qty is_bid) ob1) as Hstep.
  cbn [step returned_id] in Hstep.
  set (ob2 := (add_market qty is_bid ob1).2) in *.
  set (id := (add_market qty is_bid ob1).1) in *.
  assert (Hsucc : uint64_succ (next_id ob1) = next_id ob1 + 1)
    by (apply uint64_succ_small; lia).
  assert (Hin2 : ∀ id', id_in_use id' ob2 → 1 ≤ id' < next_id ob1).
  { intros id' Hin. apply add_market_ids in Hin.
    destruct (Huse1 id' Hin) as [Hemp|?]; [|done].
    by apply empty_book_unused in Hemp. }
  assert (Hid : (id = 0 ∧ next_id ob2 = next_id ob1) ∨
                (id = next_id ob1 ∧ next_id ob2 = next_id ob1 + 1)).
  { destruct Hstep as [(Hn & _ & Hret)|(Hn & _ & Hret)].
    - left. split; [by apply Hret|done].
    - right. split; [by apply Hret|congruence]. }
  destruct (run_issue ops2 ob2) as (Hb3 & Huse3 & _); [lia..|].
  assert (Hunused : ¬ id_in_use id (run ops2 ob2)).
  { intros [Hin|Hin]%Huse3.
    - apply Hin2 in Hin. lia.
    - lia. }
  split.
  - destruct (order_index (run ops2 ob2) !! id) eqn:E; [|done].
    exfalso. apply Hunused. left. eauto.
  - intros Hin. apply Hunused. by right.
Qed.

Lemma market_order_never_rests_witness :
  Z.of_nat (length basic_matching + 1 + length no_matching) < UINT64_MOD - 1 ∧
  order_index
    (run no_matching (add_market 40 true (run basic_matching empty_book)).2)
    !! (add_market 40 true (run basic_matching empty_book)).1 = None ∧
  (add_market 40 true (run basic_matching empty_book)).1
    ∉ resting_ids
        (run no_matching (add_market 40 true (run basic_matching empty_book)).2).
Proof.
  assert (H : Z.of_nat (length basic_matching + 1 + length no_matching)
              < UINT64_MOD - 1) by (vm_compute; reflexivity).
  split; [exact H|].
  exact (market_order_never_rests basic_matching 40 true no_matching H).
Defined.

(** *** After the counter has wrapped *)

Lemma step_market_idle x :
  step (AddMarket 1 true) (idle_book x) = idle_book (uint64_succ x).
Proof. reflexivity. Qed.

Lemma run_market_idle n x :
  0 ≤ x < UINT64_MOD →
  run (repeat (AddMarket 1 true) n) (idle_book x)
  = idle_book ((x + Z.of_nat n) mod UINT64_MOD).
Proof.
  revert x. induction n as [|n IH]; intros x Hx.
  - cbn [repeat run]. rewrite Z.add_0_r, Z.mod_small by done. done.
  - cbn [repeat run]. rewrite step_market_idle, IH.
    + unfold uint64_succ. rewrite Zplus_mod_idemp_l. f_equal. f_equal. lia.
    + unfold uint64_succ. apply Z.mod_pos_bound. done.
Qed.

Lemma run_wrap_run x :
  0 ≤ x < UINT64_MOD →
  run wrap_run (idle_book x) = idle_book ((x + (UINT64_MOD - 1)) mod UINT64_MOD).
Proof.
  intros Hx. unfold wrap_run. rewrite run_market_idle by done.
  by rewrite N_nat_Z.
Qed.

(** C6 as stated fails: the first market order on an empty book is given
    the id 1; [2^64 - 1] market orders later the counter is back at 1, and
    the limit order submitted then rests under the id 1. *)
Lemma market_id_reused_after_wrap :
  (add_market 1 true empty_book).1 = 1 ∧
  order_index
    (run (wrap_run ++ [AddLimit (px 100 1) 1 true])
       (add_market 1 true empty_book).2) !! 1
  = Some (px 100 1, true) ∧
  1 ∈ resting_ids
        (run (wrap_run ++ [AddLimit (px 100 1) 1 true])
           (add_market 1 true empty_book).2).
Proof.
  split; [reflexivity|].
  change ((add_market 1 true empty_book).2) with (idle_book 2).
  rewrite run_app, run_wrap_run by done.
  change ((2 + (UINT64_MOD - 1)) mod UINT64_MOD) with 1.
  split; [reflexivity|]. vm_compute. apply list_elem_of_here.
Qed.

(** ** No validation of prices *)




(** Zero, negative and very large prices rest like any other. *)
Example odd_prices_rest :
  let ob := run [AddLimit (px 0 1) 5 true; AddLimit (px (-3) 1) 5 true;
                 AddLimit (px 5000000000 1) 5 false] empty_book in
  bids ob = [(px 0 1, [Order.mk 1 (px 0 1) 5]);
             (px (-3) 1, [Order.mk 2 (px (-3) 1) 5])] ∧
  asks ob = [(px 5000000000 1, [Order.mk 3 (px 5000000000 1) 5])] ∧
  total_orders ob = 3%nat.
Proof. vm_compute. done. Qed.

(** ** Every resting order is indexed, until the counter wraps *)













(** * Further properties of the engine *)

(** ** The shape of the ladders *)



(** ** The order index and the resting orders *)







(** ** The trade log *)

Lemma match_trades inc is_bid ob :
  trades ob `prefix_of` trades (match_ inc is_bid ob).2.
Proof.
  rewrite match_unfold.
  destruct (match_book _ _ _ _ _ _) as [[[q book'] idx'] ts]. by exists ts.
Qed.

Lemma cancel_trades id ob : trades (cancel id ob).2 = trades ob.
Proof.
  rewrite cancel_unfold.
  destruct (order_index ob !! id) as [[price is_bid]|]; [|done].
  destruct (ladder_find _ price _) as [level|]; [|done].
  by destruct (level_scan id level).
Qed.

Lemma step_trades o ob :
  o ≠ Clear → trades ob `prefix_of` trades (step o ob).
Proof.
  intros Hne. destruct o as [price qty is_bid|qty is_bid|id|]; cbn [step];
    [..|done].
  - unfold add_limit. case_bool_decide as Hq; [done|].
    pose proof (match_trades (Order.mk (next_id ob) price qty) is_bid
                  (bump_next_id ob)) as Hm.
    destruct (match_ _ _ _) as [inc' ob']. cbn [snd] in *.
    by case_bool_decide.
  - unfold add_market. case_bool_decide as Hq; [done|].
    pose proof (match_trades (Order.mk (next_id ob) (market_price is_bid) qty)
                  is_bid (bump_next_id ob)) as Hm.
    by destruct (match_ _ _ _) as [inc' ob'].
  - by rewrite cancel_trades.
Qed.

(** The trade log is append-only: whatever [add_limit], [add_market] and
    [cancel] calls are made on a book, in whatever state it is, the trades
    it had recorded before are the first trades of the log afterwards,
    unchanged and in the same order.  Only [clear] drops trades. *)
Theorem trade_log_append_only ops ob :
  Forall (λ o, o ≠ Clear) ops →
  get_trades ob `prefix_of` get_trades (run ops ob).
Proof.
  unfold get_trades. revert ob.
  induction ops as [|o ops IH]; intros ob Hnc; [done|].
  apply Forall_cons in Hnc as [Ho Hnc]. cbn [run].
  etrans; [by apply step_trades|by apply IH].
Qed.

Lemma trade_log_append_only_witness :
  Forall (λ o, o ≠ Clear) mixed_run ∧
  get_trades (run basic_matching empty_book)
    `prefix_of` get_trades (run mixed_run (run basic_matching empty_book)).
Proof.
  assert (H : Forall (λ o, o ≠ Clear) mixed_run)
    by (repeat constructor; discriminate).
  split; [exact H|].
  exact (trade_log_append_only mixed_run (run basic_matching empty_book) H).
Defined.

Lemma add_limit_trades price qty is_bid ob :
  trades (add_limit price qty is_bid ob).2 =
  if bool_decide (qty ≤ 0) then trades ob
  else trades (match_ (Order.mk (next_id ob) price qty) is_bid
                 (bump_next_id ob)).2.
Proof.
  unfold add_limit. case_bool_decide as Hq; [done|].
  destruct (match_ _ _ _) as [inc' ob']. by case_bool_decide.
Qed.

Lemma add_market_trades qty is_bid ob :
  trades (add_market qty is_bid ob).2 =
  if bool_decide (qty ≤ 0) then trades ob
  else trades (match_ (Order.mk (next_id ob) (market_price is_bid) qty)
                 is_bid (bump_next_id ob)).2.
Proof.
  unfold add_market. case_bool_decide as Hq; [done|].
  by destruct (match_ _ _ _) as [inc' ob'].
Qed.

(** The trades of one run of [match], by themselves. *)
Lemma match_new_trades inc is_bid ob :
  ∃ q book' idx' ts,
    book_outcome is_bid (Order.id inc) (Order.price inc) (Order.qty inc)
      (ladder_of (negb is_bid) ob) (order_index ob) (q, book', idx', ts) ∧
    Order.qty (match_ inc is_bid ob).1 = q ∧
    trades (match_ inc is_bid ob).2 = trades ob ++ ts.
Proof.
  rewrite match_unfold. outer_loop Hout q book' idx' ts.
  by exists q, book', idx', ts.
Qed.

Lemma level_outcome_positive is_bid inc_id lp q level idx q' level' idx' ts :
  level_outcome is_bid inc_id lp q level idx (q', level', idx', ts) →
  Forall (λ o, 0 < Order.qty o) level →
  Forall (λ t, 0 < Trade.qty t) ts.
Proof.
  inversion 1 as [filled rest_ Hlv Hstop Hpos|filled r rest_ Hlv Hpart]; subst.
  - intros [Hf _]%Forall_app. apply Forall_fmap.
    eapply Forall_impl; [exact Hf|]. intros o Ho. cbn.
    unfold fill_trade. by rewrite make_trade_qty.
  - intros [Hf _]%Forall_app. apply Forall_app. split.
    + apply Forall_fmap. eapply Forall_impl; [exact Hf|]. intros o Ho. cbn.
      unfold fill_trade. by rewrite make_trade_qty.
    + repeat constructor. rewrite make_trade_qty. lia.
Qed.

Lemma ladder_wf_positive side m lp level :
  ladder_wf side m → (lp, level) ∈ m → Forall (λ o, 0 < Order.qty o) level.
Proof.
  intros [_ Hall] Hin. rewrite Forall_forall in Hall.
  destruct (Hall _ Hin) as [_ Hlevel]. cbn in Hlevel.
  eapply Forall_impl; [exact Hlevel|]. by intros o [? _].
Qed.

Lemma book_outcome_positive side is_bid inc_id p q book idx q' book' idx' ts :
  book_outcome is_bid inc_id p q book idx (q', book', idx', ts) →
  ladder_wf side book →
  Forall (λ t, 0 < Trade.qty t) ts.
Proof.
  inversion 1 as [swept rest_ Hb Hsw Hstop Hpos
                 |swept lp level rest_ q1 level1 idx1 ts1
                    Hb Hsw Hx Hq Hl Hne Hz]; subst; intros Hwf.
  - apply Forall_forall. intros t Ht.
    apply list_elem_of_bind in Ht as ([lp level] & Ht & He). cbn in Ht.
    apply list_elem_of_fmap in Ht as (o & -> & Ho).
    unfold fill_trade. rewrite make_trade_qty.
    assert (Hpos' : Forall (λ o, 0 < Order.qty o) level).
    { eapply ladder_wf_positive; [exact Hwf|]. apply elem_of_app. by left. }
    rewrite Forall_forall in Hpos'. by apply Hpos'.
  - apply Forall_app. split.
    + apply Forall_forall. intros t Ht.
      apply list_elem_of_bind in Ht as ([lp' level'] & Ht & He). cbn in Ht.
      apply list_elem_of_fmap in Ht as (o & -> & Ho).
      unfold fill_trade. rewrite make_trade_qty.
      assert (Hpos' : Forall (λ o, 0 < Order.qty o) level').
      { eapply ladder_wf_positive; [exact Hwf|]. apply elem_of_app. by left. }
      rewrite Forall_forall in Hpos'. by apply Hpos'.
    + eapply level_outcome_positive; [exact Hl|].
      eapply ladder_wf_positive; [exact Hwf|].
      apply elem_of_app. right. apply list_elem_of_here.
Qed.

Lemma match_trades_positive inc is_bid ob :
  book_wf ob →
  Forall (λ t, 0 < Trade.qty t) (trades ob) →
  Forall (λ t, 0 < Trade.qty t) (trades (match_ inc is_bid ob).2).
Proof.
  intros Hwf Hpos.
  destruct (match_new_trades inc is_bid ob) as (q & book' & idx' & ts
                                                 & Hout & _ & ->).
  apply Forall_app. split; [done|].
  eapply book_outcome_positive; [exact Hout|].
  by apply ladder_of_wf.
Qed.

Lemma step_trades_positive o ob :
  book_wf ob →
  Forall (λ t, 0 < Trade.qty t) (trades ob) →
  Forall (λ t, 0 < Trade.qty t) (trades (step o ob)).
Proof.
  intros Hwf Hpos. destruct o as [price qty is_bid|qty is_bid|id|]; cbn [step].
  - rewrite add_limit_trades. case_bool_decide; [done|].
    apply match_trades_positive; [by apply bump_next_id_wf|done].
  - rewrite add_market_trades. case_bool_decide; [done|].
    apply match_trades_positive; [by apply bump_next_id_wf|done].
  - by rewrite cancel_trades.
  - constructor.
Qed.

(** Every trade the engine ever records has a positive quantity. *)
Theorem trades_have_positive_quantity ob :
  reachable ob → Forall (λ t, 0 < Trade.qty t) (get_trades ob).
Proof.
  intros [ops ->]. unfold get_trades.
  assert (H : ∀ ob, book_wf ob →
            Forall (λ t, 0 < Trade.qty t) (trades ob) →
            Forall (λ t, 0 < Trade.qty t) (trades (run ops ob))).
  { induction ops as [|o ops IH]; intros ob Hwf Hpos; [done|].
    cbn [run]. apply IH; [by apply step_wf|by apply step_trades_positive]. }
  apply H; [apply empty_book_wf|constructor].
Qed.

Lemma trades_have_positive_quantity_witness :
  reachable (run mixed_run empty_book) ∧
  Forall (λ t, 0 < Trade.qty t) (get_trades (run mixed_run empty_book)).
Proof.
  assert (Hr : reachable (run mixed_run empty_book)) by (by eexists).
  split; [exact Hr|]. exact (trades_have_positive_quantity _ Hr).
Defined.

(** ** Price priority *)

Lemma no_worse_refl is_bid a : no_worse is_bid a a.
Proof. destruct is_bid; apply Qcle_refl. Qed.

Lemma sorts_before_no_worse is_bid a b :
  sorts_before (negb is_bid) a b → no_worse is_bid a b.
Proof. destruct is_bid; cbn; apply Qclt_le_weak. Qed.

Lemma same_price_sorted is_bid lp (l : list Qc) :
  Forall (λ x, x = lp) l → StronglySorted (no_worse is_bid) l.
Proof.
  induction 1 as [|x l -> Hall IH]; constructor; [done|].
  eapply Forall_impl; [exact Hall|]. intros y ->. apply no_worse_refl.
Qed.

Lemma fill_trade_prices is_bid inc_id lp (filled : list Order.t) :
  Forall (λ x, x = lp) (Trade.price <$> (fill_trade is_bid inc_id lp <$> filled)).
Proof.
  rewrite <-list_fmap_compose. apply Forall_fmap, Forall_forall.
  intros o _. cbn. unfold fill_trade. apply make_trade_price.
Qed.

Lemma level_outcome_prices is_bid inc_id lp q level idx q' level' idx' ts :
  level_outcome is_bid inc_id lp q level idx (q', level', idx', ts) →
  Forall (λ x, x = lp) (Trade.price <$> ts).
Proof.
  inversion 1 as [filled rest_ Hlv Hstop Hpos|filled r rest_ Hlv Hpart]; subst.
  - apply fill_trade_prices.
  - rewrite fmap_app. apply Forall_app. split; [apply fill_trade_prices|].
    repeat constructor. apply make_trade_price.
Qed.

Lemma sweep_trades_prices is_bid inc_id swept x :
  x ∈ Trade.price <$> sweep_trades is_bid inc_id swept → x ∈ swept.*1.
Proof.
  intros (t & -> & Ht)%list_elem_of_fmap.
  apply list_elem_of_bind in Ht as ([lp level] & Ht & He). cbn in Ht.
  apply list_elem_of_fmap in Ht as (o & -> & Ho).
  unfold fill_trade. rewrite make_trade_price.
  apply list_elem_of_fmap. by exists (lp, level).
Qed.

Lemma sweep_trades_sorted is_bid inc_id swept :
  StronglySorted (sorts_before (negb is_bid)) swept.*1 →
  StronglySorted (no_worse is_bid)
    (Trade.price <$> sweep_trades is_bid inc_id swept).
Proof.
  induction swept as [|[lp level] swept IH]; [constructor|].
  rewrite fmap_cons, StronglySorted_cons. intros [Hall Hs].
  rewrite sweep_trades_cons, fmap_app. apply StronglySorted_app_2.
  - intros x1 x2 Hx1 Hx2%sweep_trades_prices.
    pose proof (fill_trade_prices is_bid inc_id lp level) as Hp.
    rewrite Forall_forall in Hp, Hall. rewrite (Hp x1 Hx1).
    by apply sorts_before_no_worse, Hall.
  - eapply same_price_sorted, fill_trade_prices.
  - by apply IH.
Qed.

Lemma book_outcome_sorted is_bid inc_id p q book idx q' book' idx' ts :
  book_outcome is_bid inc_id p q book idx (q', book', idx', ts) →
  StronglySorted (sorts_before (negb is_bid)) book.*1 →
  StronglySorted (no_worse is_bid) (Trade.price <$> ts).
Proof.
  inversion 1 as [swept rest_ Hb Hsw Hstop Hpos
                 |swept lp level rest_ q1 level1 idx1 ts1
                    Hb Hsw Hx Hq Hl Hne Hz]; subst; rewrite fmap_app.
  - intros Hs%StronglySorted_app_1_l. by apply sweep_trades_sorted.
  - intros Hs. rewrite fmap_app. apply StronglySorted_app_2.
    + intros x1 x2 Hx1%sweep_trades_prices Hx2.
      pose proof (level_outcome_prices _ _ _ _ _ _ _ _ _ _ Hl) as Hp.
      rewrite Forall_forall in Hp. rewrite (Hp x2 Hx2).
      apply sorts_before_no_worse.
      eapply StronglySorted_app_1_elem_of; [exact Hs|done|].
      apply list_elem_of_here.
    + apply sweep_trades_sorted. by apply StronglySorted_app_1_l in Hs.
    + eapply same_price_sorted, level_outcome_prices, Hl.
Qed.

Lemma match_trades_sorted inc is_bid ob :
  book_wf ob →
  ∃ new,
    trades (match_ inc is_bid ob).2 = trades ob ++ new ∧
    StronglySorted (no_worse is_bid) (Trade.price <$> new).
Proof.
  intros Hwf.
  destruct (match_new_trades inc is_bid ob) as (q & book' & idx' & ts
                                                 & Hout & _ & Ht).
  exists ts. split; [done|].
  eapply book_outcome_sorted; [exact Hout|].
  by destruct (ladder_of_wf (negb is_bid) ob Hwf).
Qed.

(** Price priority: the trades one incoming order makes are recorded
    best price first.  For a buy (limit or market) the trade prices never
    decrease along the log, for a sell they never increase. *)
Theorem trades_best_price_first ob price qty is_bid :
  reachable ob →
  (∃ new,
     get_trades (add_limit price qty is_bid ob).2 = get_trades ob ++ new ∧
     StronglySorted (no_worse is_bid) (Trade.price <$> new)) ∧
  (∃ new,
     get_trades (add_market qty is_bid ob).2 = get_trades ob ++ new ∧
     StronglySorted (no_worse is_bid) (Trade.price <$> new)).
Proof.
  intros Hwf%reachable_wf. unfold get_trades.
  rewrite add_limit_trades, add_market_trades.
  case_bool_decide as Hq.
  - split; exists []; by rewrite app_nil_r; split; [|constructor].
  - split.
    + destruct (match_trades_sorted (Order.mk (next_id ob) price qty) is_bid
                  (bump_next_id ob) (bump_next_id_wf _ Hwf))
        as (new & Ht & Hs).
      exists new. split; [exact Ht|exact Hs].
    + destruct (match_trades_sorted
                  (Order.mk (next_id ob) (market_price is_bid) qty) is_bid
                  (bump_next_id ob) (bump_next_id_wf _ Hwf))
        as (new & Ht & Hs).
      exists new. split; [exact Ht|exact Hs].
Qed.

Lemma trades_best_price_first_witness :
  reachable (run three_asks empty_book) ∧
  (∃ new,
     get_trades (add_limit (px 101 1) 120 true (run three_asks empty_book)).2
       = get_trades (run three_asks empty_book) ++ new ∧
     StronglySorted (no_worse true) (Trade.price <$> new)) ∧
  (∃ new,
     get_trades (add_market 120 true (run three_asks empty_book)).2
       = get_trades (run three_asks empty_book) ++ new ∧
     StronglySorted (no_worse true) (Trade.price <$> new)).
Proof.
  assert (Hr : reachable (run three_asks empty_book)) by (by eexists).
  split; [exact Hr|].
  exact (trades_best_price_first _ (px 101 1) 120 true Hr).
Defined.

(** ** How much an order is filled *)

Lemma level_qty_nonneg level :
  Forall (λ o, 0 < Order.qty o) level → 0 ≤ level_qty level.
Proof.
  induction 1 as [|o level Ho _ IH]; [done|]. rewrite level_qty_cons. lia.
Qed.

Lemma ladder_qty_nonneg (m : ladder) :
  Forall (λ e, Forall (λ o, 0 < Order.qty o) e.2) m → 0 ≤ ladder_qty m.
Proof.
  induction 1 as [|[lp level] m Hl _ IH]; [done|].
  rewrite ladder_qty_cons. apply level_qty_nonneg in Hl. cbn [snd] in Hl. lia.
Qed.

Lemma ladder_wf_levels_positive side m :
  ladder_wf side m → Forall (λ e, Forall (λ o, 0 < Order.qty o) e.2) m.
Proof.
  intros Hwf. apply Forall_forall. intros [lp level] Hin.
  by eapply ladder_wf_positive.
Qed.

Lemma crossing_qty_nonneg is_bid p (m : ladder) :
  Forall (λ e, Forall (λ o, 0 < Order.qty o) e.2) m →
  0 ≤ crossing_qty is_bid p m.
Proof.
  intros Hm. apply ladder_qty_nonneg.
  apply Forall_forall. intros e [_ He]%list_elem_of_filter.
  rewrite Forall_forall in Hm. by apply Hm.
Qed.

Lemma crossing_qty_app is_bid p m1 m2 :
  crossing_qty is_bid p (m1 ++ m2)
  = crossing_qty is_bid p m1 + crossing_qty is_bid p m2.
Proof. unfold crossing_qty. by rewrite filter_app, ladder_qty_app. Qed.

Lemma crossing_qty_all is_bid p (m : ladder) :
  Forall (λ e, crosses is_bid e.1 p = true) m →
  crossing_qty is_bid p m = ladder_qty m.
Proof.
  unfold crossing_qty. induction 1 as [|e m He _ IH]; [done|].
  rewrite filter_cons_True by done. destruct e as [lp level].
  by rewrite !ladder_qty_cons, IH.
Qed.

Lemma crossing_qty_none is_bid p (m : ladder) :
  Forall (λ e, crosses is_bid e.1 p = false) m →
  crossing_qty is_bid p m = 0.
Proof.
  unfold crossing_qty. induction 1 as [|e m He _ IH]; [done|].
  rewrite filter_cons_False by congruence. done.
Qed.

Lemma sorted_none_cross is_bid p e (m : ladder) :
  StronglySorted (sorts_before (negb is_bid)) (e :: m).*1 →
  crosses is_bid e.1 p = false →
  Forall (λ e', crosses is_bid e'.1 p = false) (e :: m).
Proof.
  rewrite fmap_cons, StronglySorted_cons. intros [Hall _] Hx.
  constructor; [done|]. apply crosses_false in Hx.
  rewrite Forall_fmap in Hall. eapply Forall_impl; [exact Hall|].
  intros e' He'. cbn in He'. apply crosses_false.
  by eapply sorts_before_trans.
Qed.

Lemma level_outcome_rest_positive is_bid inc_id lp q level idx q' level' idx' ts :
  level_outcome is_bid inc_id lp q level idx (q', level', idx', ts) →
  Forall (λ o, 0 < Order.qty o) level →
  Forall (λ o, 0 < Order.qty o) level'.
Proof.
  inversion 1 as [filled rest_ Hlv Hstop Hpos|filled r rest_ Hlv Hpart]; subst.
  - by intros [_ ?]%Forall_app.
  - intros [_ [Hr Hrest]%Forall_cons]%Forall_app.
    constructor; [|done]. cbn. lia.
Qed.

(** The outer loop trades as much as the incoming order asks for, or all
    there is at the prices it crosses, whichever is less. *)
Lemma book_outcome_fill is_bid inc_id p q book idx q' book' idx' ts :
  book_outcome is_bid inc_id p q book idx (q', book', idx', ts) →
  ladder_wf (negb is_bid) book → 0 < q →
  trades_qty ts = Z.min q (crossing_qty is_bid p book) ∧
  q' = q - trades_qty ts.
Proof.
  intros Hout Hwf Hq.
  destruct (book_outcome_qty _ _ _ _ _ _ _ _ _ _ Hout) as (_ & Hbal & _).
  split; [|lia]. clear Hbal.
  pose proof (ladder_wf_levels_positive _ _ Hwf) as Hposl.
  destruct Hwf as [Hs _].
  inversion Hout as [swept rest_ Hb Hsw Hstop Hpos
                    |swept lp level rest_ q1 level1 idx1 ts1
                       Hb Hsw Hx Hq1 Hl Hne Hz]; subst.
  - rewrite sweep_trades_qty, crossing_qty_app, (crossing_qty_all _ _ swept)
      by done.
    apply Forall_app in Hposl as [_ Hposr].
    pose proof (crossing_qty_nonneg is_bid p _ Hposr) as Hc.
    specialize (Hpos ltac:(lia)).
    destruct Hstop as [?|[->|(e & rest' & -> & Hxe)]]; [lia| |].
    + change (crossing_qty is_bid p []) with 0. lia.
    + rewrite fmap_app in Hs. apply StronglySorted_app_1_r in Hs.
      rewrite (crossing_qty_none _ _ (e :: rest'))
        by (by apply sorted_none_cross). lia.
  - rewrite trades_qty_app, sweep_trades_qty, crossing_qty_app,
      (crossing_qty_all _ _ swept) by done.
    apply Forall_app in Hposl as [_ [Hposlv Hposr]%Forall_cons].
    cbn [snd] in Hposlv.
    unfold crossing_qty at 1. rewrite filter_cons_True by done.
    rewrite ladder_qty_cons. cbn [snd].
    fold (crossing_qty is_bid p rest_).
    pose proof (crossing_qty_nonneg is_bid p _ Hposr) as Hc.
    destruct (level_outcome_qty _ _ _ _ _ _ _ _ _ _ Hl) as (Hl1 & Hl2 & _).
    assert (0 ≤ level_qty level1).
    { apply level_qty_nonneg.
      by eapply level_outcome_rest_positive. }
    lia.
Qed.

Lemma match_fill inc is_bid ob :
  book_wf ob → 0 < Order.qty inc →
  ∃ new,
    trades (match_ inc is_bid ob).2 = trades ob ++ new ∧
    trades_qty new
      = Z.min (Order.qty inc)
          (crossing_qty is_bid (Order.price inc) (ladder_of (negb is_bid) ob)) ∧
    Order.qty (match_ inc is_bid ob).1 = Order.qty inc - trades_qty new ∧
    ladder_of is_bid (match_ inc is_bid ob).2 = ladder_of is_bid ob.
Proof.
  intros Hwf Hq.
  destruct (match_new_trades inc is_bid ob) as (q & book' & idx' & ts
                                                 & Hout & Hres & Ht).
  destruct (book_outcome_fill _ _ _ _ _ _ _ _ _ _ Hout) as [Hfill Hq'];
    [by apply ladder_of_wf|done|].
  exists ts. split_and!; [done|done|congruence|].
  pose proof (match_wf inc is_bid ob Hwf) as Hm.
  destruct (match_ inc is_bid ob) as [inc' ob'].
  by destruct Hm as (_ & _ & Hside & _).
Qed.

(** An accepted order trades the lesser of its quantity and the quantity
    resting at the prices it crosses (for a market order: that its
    synthetic price crosses); a limit order leaves the rest of its quantity,
    and nothing else, on its own side of the book. *)
Theorem order_fill_quantity ob price qty is_bid :
  reachable ob → 0 < qty →
  (∃ new,
     get_trades (add_limit price qty is_bid ob).2 = get_trades ob ++ new ∧
     trades_qty new
       = Z.min qty (crossing_qty is_bid price (ladder_of (negb is_bid) ob)) ∧
     ladder_qty (ladder_of is_bid (add_limit price qty is_bid ob).2)
       = ladder_qty (ladder_of is_bid ob) + (qty - trades_qty new)) ∧
  (∃ new,
     get_trades (add_market qty is_bid ob).2 = get_trades ob ++ new ∧
     trades_qty new
       = Z.min qty (crossing_qty is_bid (market_price is_bid)
                      (ladder_of (negb is_bid) ob)) ∧
     ladder_of is_bid (add_market qty is_bid ob).2 = ladder_of is_bid ob).
Proof.
  intros Hwf%reachable_wf Hq. unfold get_trades. split.
  - destruct (match_fill (Order.mk (next_id ob) price qty) is_bid
                (bump_next_id ob) (bump_next_id_wf _ Hwf) Hq)
      as (new & Ht & Hfill & Hres & Hside).
    cbn [Order.qty Order.price] in *.
    exists new. unfold add_limit. rewrite bool_decide_eq_false_2 by lia.
    pose proof (match_inc_price (Order.mk (next_id ob) price qty) is_bid
                  (bump_next_id ob)) as Hp.
    destruct (match_ _ is_bid (bump_next_id ob)) as [inc' ob2].
    cbn [fst snd Order.price] in *.
    assert (Hside' : ladder_of is_bid ob2 = ladder_of is_bid ob)
      by (by destruct is_bid).
    assert (Hopp : ladder_of (negb is_bid) (bump_next_id ob)
                   = ladder_of (negb is_bid) ob) by (by destruct is_bid).
    rewrite Hopp in Hfill.
    case_bool_decide as Hr; cbn [snd].
    + split_and!; [exact Ht|done|].
      rewrite <-Hside', <-Hres.
      destruct is_bid; cbn [ladder_of bids asks]; apply ladder_push_qty.
    + split_and!; [exact Ht|done|]. rewrite Hside'. lia.
  - destruct (match_fill (Order.mk (next_id ob) (market_price is_bid) qty)
                is_bid (bump_next_id ob) (bump_next_id_wf _ Hwf) Hq)
      as (new & Ht & Hfill & Hres & Hside).
    cbn [Order.qty Order.price] in *.
    exists new. unfold add_market. rewrite bool_decide_eq_false_2 by lia.
    destruct (match_ _ is_bid (bump_next_id ob)) as [inc' ob2].
    cbn [fst snd] in *.
    assert (Hopp : ladder_of (negb is_bid) (bump_next_id ob)
                   = ladder_of (negb is_bid) ob) by (by destruct is_bid).
    rewrite Hopp in Hfill.
    split_and!; [exact Ht|done|]. by destruct is_bid.
Qed.

Lemma order_fill_quantity_witness :
  reachable (run three_asks empty_book) ∧ 0 < 120 ∧
  (∃ new,
     get_trades (add_limit (px 101 1) 120 true (run three_asks empty_book)).2
       = get_trades (run three_asks empty_book) ++ new ∧
     trades_qty new
       = Z.min 120 (crossing_qty true (px 101 1)
                      (ladder_of (negb true) (run three_asks empty_book))) ∧
     ladder_qty
       (ladder_of true
          (add_limit (px 101 1) 120 true (run three_asks empty_book)).2)
       = ladder_qty (ladder_of true (run three_asks empty_book))
         + (120 - trades_qty new)) ∧
  (∃ new,
     get_trades (add_market 120 true (run three_asks empty_book)).2
       = get_trades (run three_asks empty_book) ++ new ∧
     trades_qty new
       = Z.min 120 (crossing_qty true (market_price true)
                      (ladder_of (negb true) (run three_asks empty_book))) ∧
     ladder_of true (add_market 120 true (run three_asks empty_book)).2
       = ladder_of true (run three_asks empty_book)).
Proof.
  assert (Hr : reachable (run three_asks empty_book)) by (by eexists).
  assert (Hq : 0 < 120) by lia.
  split; [exact Hr|]. split; [exact Hq|].
  exact (order_fill_quantity _ (px 101 1) 120 true Hr Hq).
Defined.

(** A bid for 400 at 101 against three asks of 50 at 100 trades the 150
    there are and rests with 250. *)
Example fill_all_there_is :
  let ob := (add_limit (px 101 1) 400 true (run three_asks empty_book)).2 in
  trades_qty (trades ob) = 150 ∧ asks ob = [] ∧
  bids ob = [(px 101 1, [Order.mk 4 (px 101 1) 250])].
Proof. vm_compute. done. Qed.

(** ** What a cancel takes out *)

Lemma ladder_store_orders_split is_bid k level i o m :
  ladder_find (comp_of is_bid) k m = Some level →
  level !! i = Some o →
  ∃ pre post,
    ladder_orders m = pre ++ o :: post ∧
    ladder_orders (ladder_store (comp_of is_bid) k (delete i level) m)
    = pre ++ post.
Proof.
  intros Hf Hi.
  induction m as [|[k' l'] m IH]; cbn [ladder_find ladder_store] in Hf |- *;
    [done|].
  destruct (key_equiv _ k' k) eqn:E.
  - injection Hf as ->.
    exists (take i level), (drop (S i) level ++ ladder_orders m).
    split.
    + rewrite ladder_orders_cons, app_comm_cons, app_assoc. f_equal.
      by rewrite take_drop_middle.
    + rewrite app_assoc, <-delete_take_drop.
      destruct (delete i level) eqn:Ed; [done|].
      by rewrite ladder_orders_cons.
  - destruct (IH Hf) as (pre & post & Hm & Hs).
    exists (l' ++ pre), post.
    rewrite !ladder_orders_cons, Hm, Hs. by rewrite <-!app_assoc.
Qed.

(** A [cancel] that succeeds takes exactly one order out of the book, one
    whose id is the id asked for: the orders of its side are the same as
    before, in the same order, without it; the other side, the trade log and
    the id counter are untouched; the index loses the entry of that id and
    [total_orders] goes down by one. *)
Theorem cancel_removes_one_order ob id :
  (cancel id ob).1 = true →
  ∃ o is_bid pre post,
    cancel_target id ob = Some o ∧ Order.id o = id ∧
    ladder_orders (ladder_of is_bid ob) = pre ++ o :: post ∧
    ladder_orders (ladder_of is_bid (cancel id ob).2) = pre ++ post ∧
    ladder_of (negb is_bid) (cancel id ob).2 = ladder_of (negb is_bid) ob ∧
    order_index (cancel id ob).2 = delete id (order_index ob) ∧
    total_orders ob = S (total_orders (cancel id ob).2) ∧
    get_trades (cancel id ob).2 = get_trades ob ∧
    next_id (cancel id ob).2 = next_id ob.
Proof.
  unfold cancel_target, total_orders, get_trades. rewrite cancel_unfold.
  destruct (order_index ob !! id) as [[price is_bid]|] eqn:El; [|done].
  destruct (ladder_find _ price _) as [level|] eqn:Ef; [|done].
  destruct (level_scan id level) as [i|] eqn:Es; [|done].
  intros _. cbn [snd].
  apply level_scan_Some in Es as (o & Hi & Hid).
  destruct (ladder_store_orders_split is_bid price level i o _ Ef Hi)
    as (pre & post & Hm & Hs).
  exists o, is_bid, pre, post.
  rewrite ladder_of_set_ladder_eq, ladder_of_set_ladder_ne.
  split_and!; try done.
  cbn [set_ladder erase_index order_index].
  rewrite <-(insert_id (order_index ob) id _ El) at 1.
  rewrite <-insert_delete_eq.
  apply map_size_insert_None, lookup_delete_eq.
Qed.

Lemma cancel_removes_one_order_witness :
  (cancel 2 (run three_asks empty_book)).1 = true ∧
  ∃ o is_bid pre post,
    cancel_target 2 (run three_asks empty_book) = Some o ∧ Order.id o = 2 ∧
    ladder_orders (ladder_of is_bid (run three_asks empty_book))
      = pre ++ o :: post ∧
    ladder_orders (ladder_of is_bid (cancel 2 (run three_asks empty_book)).2)
      = pre ++ post ∧
    ladder_of (negb is_bid) (cancel 2 (run three_asks empty_book)).2
      = ladder_of (negb is_bid) (run three_asks empty_book) ∧
    order_index (cancel 2 (run three_asks empty_book)).2
      = delete 2 (order_index (run three_asks empty_book)) ∧
    total_orders (run three_asks empty_book)
      = S (total_orders (cancel 2 (run three_asks empty_book)).2) ∧
    get_trades (cancel 2 (run three_asks empty_book)).2
      = get_trades (run three_asks empty_book) ∧
    next_id (cancel 2 (run three_asks empty_book)).2
      = next_id (run three_asks empty_book).
Proof.
  assert (H : (cancel 2 (run three_asks empty_book)).1 = true)
    by (vm_compute; reflexivity).
  split; [exact H|].
  exact (cancel_removes_one_order (run three_asks empty_book) 2 H).
Defined.

(** ** What a market order leaves behind *)

Lemma erase_ids_subseteq popped (idx : index) : erase_ids popped idx ⊆ idx.
Proof.
  revert idx. induction popped as [|o popped IH]; intros idx; [done|].
  change (erase_ids (o :: popped) idx)
    with (erase_ids popped (delete (Order.id o) idx)).
  etrans; [apply IH|apply delete_subseteq].
Qed.

Lemma level_outcome_survivors is_bid inc_id lp q level idx q' level' idx' ts o' :
  level_outcome is_bid inc_id lp q level idx (q', level', idx', ts) →
  o' ∈ level' →
  ∃ o, o ∈ level ∧ Order.id o' = Order.id o ∧
       Order.price o' = Order.price o ∧ Order.qty o' ≤ Order.qty o.
Proof.
  inversion 1 as [filled rest_ Hlv Hstop Hpos|filled r rest_ Hlv Hpart]; subst.
  - intros Hin. exists o'. split_and!; [|done..|lia].
    apply elem_of_app. by right.
  - intros [->|Hin]%elem_of_cons.
    + exists r. split_and!; [|done..|cbn; lia].
      apply elem_of_app. right. apply list_elem_of_here.
    + exists o'. split_and!; [|done..|lia].
      apply elem_of_app. right. by apply list_elem_of_further.
Qed.

Lemma book_outcome_survivors is_bid inc_id p q book idx q' book' idx' ts o' :
  book_outcome is_bid inc_id p q book idx (q', book', idx', ts) →
  o' ∈ ladder_orders book' →
  ∃ o, o ∈ ladder_orders book ∧ Order.id o' = Order.id o ∧
       Order.price o' = Order.price o ∧ Order.qty o' ≤ Order.qty o.
Proof.
  inversion 1 as [swept rest_ Hb Hsw Hstop Hpos
                 |swept lp level rest_ q1 level1 idx1 ts1
                    Hb Hsw Hx Hq Hl Hne Hz]; subst.
  - intros Hin. exists o'. split_and!; [|done..|lia].
    rewrite ladder_orders_app. apply elem_of_app. by right.
  - rewrite ladder_orders_app, !ladder_orders_cons.
    intros [Hin|Hin]%elem_of_app.
    + destruct (level_outcome_survivors _ _ _ _ _ _ _ _ _ _ _ Hl Hin)
        as (o & Ho & ? & ? & ?).
      exists o. split_and!; [|done..].
      apply elem_of_app. right. apply elem_of_app. by left.
    + exists o'. split_and!; [|done..|lia].
      apply elem_of_app. right. apply elem_of_app. by right.
Qed.

(** [add_market] puts nothing in the book, whatever the state it is called
    in: its own side is left as it was, the order index only loses entries,
    and every order in the opposing ladder afterwards was there before,
    with the same id and price and at least the same quantity. *)
Theorem market_order_inserts_nothing qty is_bid ob :
  ladder_of is_bid (add_market qty is_bid ob).2 = ladder_of is_bid ob ∧
  order_index (add_market qty is_bid ob).2 ⊆ order_index ob ∧
  ∀ o', o' ∈ ladder_orders (ladder_of (negb is_bid) (add_market qty is_bid ob).2) →
    ∃ o, o ∈ ladder_orders (ladder_of (negb is_bid) ob) ∧
         Order.id o' = Order.id o ∧ Order.price o' = Order.price o ∧
         Order.qty o' ≤ Order.qty o.
Proof.
  unfold add_market. case_bool_decide as Hq.
  - split_and!; [done..|]. intros o' Ho'. exists o'. split_and!; [done..|lia].
  - rewrite match_unfold. cbn [Order.id Order.price Order.qty].
    outer_loop Hout q book' idx' ts. cbn [snd].
    assert (Hopp : ladder_of (negb is_bid) (bump_next_id ob)
                   = ladder_of (negb is_bid) ob) by (by destruct is_bid).
    rewrite Hopp in Hout.
    destruct (book_outcome_index _ _ _ _ _ _ _ _ _ _ Hout)
      as (popped & -> & _).
    split_and!.
    + by destruct is_bid.
    + cbn [order_index]. apply erase_ids_subseteq.
    + intros o' Ho'. eapply book_outcome_survivors; [exact Hout|].
      by destruct is_bid.
Qed.

(** ** The ids a book gives out *)

Lemma returned_ids_increasing ops ob :
  1 ≤ next_id ob →
  next_id ob + Z.of_nat (length ops) < UINT64_MOD →
  StronglySorted Z.lt (filter (λ id, id ≠ 0) (returned_ids ops ob)).
Proof.
  revert ob. induction ops as [|o ops IH]; intros ob Hlo Hhi; [constructor|].
  cbn [returned_ids]. rewrite length_cons, Nat2Z.inj_succ in Hhi.
  assert (Hsucc : uint64_succ (next_id ob) = next_id ob + 1)
    by (apply uint64_succ_small; lia).
  rewrite filter_app.
  destruct (step_issue o ob) as [(Hn & _ & Hret)|(Hn & _ & Hret)].
  - assert (filter (λ id, id ≠ 0) (option_list (returned_id o ob)) = [])
      as ->.
    { destruct (returned_id o ob) as [id|]; [|done].
      change (option_list (Some id)) with [id].
      rewrite filter_cons_False; [done|]. rewrite (Hret id eq_refl). lia. }
    cbn [app]. apply IH; lia.
  - rewrite Hsucc in Hn. apply StronglySorted_app_2.
    + intros x1 x2 [_ Hx1]%list_elem_of_filter [Hne Hx2]%list_elem_of_filter.
      destruct (returned_id o ob) as [id|];
        [|by apply elem_of_nil in Hx1].
      apply list_elem_of_singleton in Hx1 as ->.
      rewrite (Hret id eq_refl).
      destruct (run_issue ops (step o ob)) as (_ & _ & Hr); [lia..|].
      destruct (Hr x2 Hx2) as [?|?]; [done|lia].
    + destruct (returned_id o ob) as [id|]; [|constructor].
      change (option_list (Some id)) with [id].
      destruct (decide (id ≠ 0)).
      * rewrite filter_cons_True by done. repeat constructor.
      * rewrite filter_cons_False by done. constructor.
    + apply IH; lia.
Qed.

(** Until the id counter wraps around, the ids a book gives to accepted
    orders (the nonzero ids it returns) are strictly increasing in the
    order of the calls, so that no two accepted orders are ever given the
    same id; [clear] does not start the ids over. *)
Theorem ids_strictly_increasing ops :
  Z.of_nat (length ops) < UINT64_MOD - 1 →
  StronglySorted Z.lt (filter (λ id, id ≠ 0) (returned_ids ops empty_book)) ∧
  NoDup (filter (λ id, id ≠ 0) (returned_ids ops empty_book)).
Proof.
  intros Hlen.
  assert (Hs : StronglySorted Z.lt
                 (filter (λ id, id ≠ 0) (returned_ids ops empty_book))).
  { apply returned_ids_increasing; change (next_id empty_book) with 1; lia. }
  split; [done|].
  induction Hs as [|x l Hs IH Hall]; constructor; [|done].
  intros Hin. rewrite Forall_forall in Hall. specialize (Hall x Hin). lia.
Qed.

Lemma ids_strictly_increasing_witness :
  Z.of_nat (length (mixed_run ++ Clear :: three_asks)) < UINT64_MOD - 1 ∧
  StronglySorted Z.lt
    (filter (λ id, id ≠ 0)
       (returned_ids (mixed_run ++ Clear :: three_asks) empty_book)) ∧
  NoDup
    (filter (λ id, id ≠ 0)
       (returned_ids (mixed_run ++ Clear :: three_asks) empty_book)).
Proof.
  assert (H : Z.of_nat (length (mixed_run ++ Clear :: three_asks))
              < UINT64_MOD - 1) by (vm_compute; reflexivity).
  split; [exact H|].
  exact (ids_strictly_increasing (mixed_run ++ Clear :: three_asks) H).
Defined.

Example ids_across_clear :
  returned_ids (mixed_run ++ Clear :: three_asks) empty_book
  = [1; 2; 3; 4; 5; 6; 7].
Proof. vm_compute. reflexivity. Qed.

(** ** Resting and cancelling *)

Lemma ladder_store_push is_bid k o m :
  ladder_wf is_bid m →
  ladder_store (comp_of is_bid) k
    (default [] (ladder_find (comp_of is_bid) k m))
    (ladder_push (comp_of is_bid) k o m) = m.
Proof.
  intros [Hs Hl]. induction m as [|[k' l'] m IH];
    cbn [ladder_push ladder_find ladder_store].
  - by rewrite key_equiv_refl.
  - rewrite fmap_cons, StronglySorted_cons in Hs. destruct Hs as [Hall Hs].
    apply Forall_cons in Hl as [[Hne _] Hl]. cbn [snd] in Hne.
    destruct (comp_of is_bid k k') eqn:E1.
    + assert (key_equiv (comp_of is_bid) k' k = false) as ->.
      { unfold key_equiv. by rewrite E1, andb_false_r. }
      destruct (ladder_find (comp_of is_bid) k m) as [l|] eqn:Ef.
      * apply ladder_find_elem in Ef. exfalso.
        apply comp_of_true in E1. rewrite Forall_forall in Hall.
        apply (sorts_before_irrefl is_bid k).
        eapply sorts_before_trans; [exact E1|]. apply Hall.
        apply list_elem_of_fmap. by exists (k, l).
      * cbn [default ladder_store]. by rewrite key_equiv_refl.
    + destruct (comp_of is_bid k' k) eqn:E2.
      * assert (key_equiv (comp_of is_bid) k' k = false) as ->.
        { unfold key_equiv. by rewrite E2. }
        cbn [ladder_store].
        assert (key_equiv (comp_of is_bid) k' k = false) as ->.
        { unfold key_equiv. by rewrite E2. }
        by rewrite IH.
      * assert (key_equiv (comp_of is_bid) k' k = true) as ->.
        { unfold key_equiv. by rewrite E1, E2. }
        cbn [default ladder_store].
        assert (key_equiv (comp_of is_bid) k' k = true) as ->.
        { unfold key_equiv. by rewrite E1, E2. }
        by destruct l'.
Qed.

Lemma level_scan_last id level o :
  id ∉ Order.id <$> level → Order.id o = id →
  level_scan id (level ++ [o]) = Some (length level).
Proof.
  intros Hn Ho. induction level as [|o' level IH]; cbn.
  - by rewrite bool_decide_eq_true_2.
  - rewrite fmap_cons, not_elem_of_cons in Hn. destruct Hn as [Hne Hn].
    rewrite bool_decide_eq_false_2 by done. by rewrite IH.
Qed.

Lemma delete_last (level : list Order.t) o :
  delete (length level) (level ++ [o]) = level.
Proof.
  induction level as [|o' level IH]; [done|]. cbn. f_equal. exact IH.
Qed.

(** Resting an order and cancelling it at once is a round trip.  As long as
    the id counter has not wrapped around: when matching leaves the order of
    an [add_limit] call with quantity, so that the order rests, a [cancel]
    of the id the call returned succeeds and brings the book to the state
    in which matching had left it. *)
Theorem rest_then_cancel ops price qty is_bid :
  Z.of_nat (length ops) < UINT64_MOD - 1 →
  0 < qty →
  0 < Order.qty (match_ (Order.mk (next_id (run ops empty_book)) price qty)
                   is_bid (bump_next_id (run ops empty_book))).1 →
  cancel (add_limit price qty is_bid (run ops empty_book)).1
         (add_limit price qty is_bid (run ops empty_book)).2
  = (true,
     (match_ (Order.mk (next_id (run ops empty_book)) price qty)
        is_bid (bump_next_id (run ops empty_book))).2).
Proof.
  intros Hlen Hq. set (ob := run ops empty_book).
  destruct (run_issue ops empty_book) as (Hb & Huse & _); [cbn; lia..|].
  change (next_id empty_book) with 1 in *. fold ob in Hb, Huse.
  assert (Hfresh : ¬ id_in_use (next_id ob) ob).
  { intros [Hemp|?]%Huse; [|lia]. by apply empty_book_unused in Hemp. }
  assert (Hwf : book_wf ob) by apply run_wf, empty_book_wf.
  pose proof (match_wf (Order.mk (next_id ob) price qty) is_bid
                (bump_next_id ob) (bump_next_id_wf _ Hwf)) as Hm.
  pose proof (match_ids (Order.mk (next_id ob) price qty) is_bid
                (bump_next_id ob) (next_id ob)) as Hids.
  unfold add_limit. rewrite bool_decide_eq_false_2 by lia.
  destruct (match_ _ is_bid (bump_next_id ob)) as [inc' ob2].
  destruct Hm as (Hwf2 & _ & _ & _ & Hid & Hp).
  cbn [fst snd Order.id Order.price] in *. intros Hr.
  rewrite bool_decide_eq_true_2 by done. cbn [fst snd].
  assert (Hfresh2 : ¬ id_in_use (next_id ob) ob2).
  { intros Hin. by apply Hfresh, id_in_use_bump, Hids. }
  set (ob' := {| bids := _; asks := _; order_index := _;
                 trades := _; next_id := _ |}).
  assert (Hlad : ladder_of is_bid ob'
                 = ladder_push (comp_of is_bid) price inc'
                     (ladder_of is_bid ob2)).
  { unfold ob'. rewrite Hp. by destruct is_bid. }
  pose proof (ladder_of_wf is_bid ob2 Hwf2) as Hlw.
  rewrite cancel_unfold.
  assert (order_index ob' !! next_id ob = Some (price, is_bid)) as ->
    by apply lookup_insert_eq.
  rewrite Hlad, ladder_find_push by (by destruct Hlw).
  set (level := default [] (ladder_find (comp_of is_bid) price
                              (ladder_of is_bid ob2))).
  assert (Hnin : next_id ob ∉ Order.id <$> level).
  { intros Hin. apply Hfresh2. right. apply resting_ids_side.
    exists is_bid. apply ladder_ids_elem. exists price, level.
    split; [|done]. unfold level in *.
    destruct (ladder_find _ price _) as [l|] eqn:Ef.
    - by apply ladder_find_elem in Ef.
    - by apply elem_of_nil in Hin. }
  rewrite (level_scan_last _ _ _ Hnin Hid). cbv beta iota.
  rewrite delete_last.
  unfold level. rewrite ladder_store_push by done.
  f_equal. unfold set_ladder, erase_index, ob'. cbn.
  rewrite delete_insert_eq, delete_id.
  - destruct ob2, is_bid; done.
  - destruct (order_index ob2 !! next_id ob) eqn:E; [|done].
    exfalso. apply Hfresh2. left. eauto.
Qed.

Lemma rest_then_cancel_witness :
  Z.of_nat (length three_asks) < UINT64_MOD - 1 ∧ 0 < 400 ∧
  0 < Order.qty
        (match_ (Order.mk (next_id (run three_asks empty_book)) (px 101 1) 400)
           true (bump_next_id (run three_asks empty_book))).1 ∧
  cancel (add_limit (px 101 1) 400 true (run three_asks empty_book)).1
         (add_limit (px 101 1) 400 true (run three_asks empty_book)).2
  = (true,
     (match_ (Order.mk (next_id (run three_asks empty_book)) (px 101 1) 400)
        true (bump_next_id (run three_asks empty_book))).2).
Proof.
  assert (H1 : Z.of_nat (length three_asks) < UINT64_MOD - 1)
    by (vm_compute; reflexivity).
  assert (H2 : 0 < 400) by lia.
  assert (H3 : 0 < Order.qty
                 (match_ (Order.mk (next_id (run three_asks empty_book))
                            (px 101 1) 400)
                    true (bump_next_id (run three_asks empty_book))).1)
    by (vm_compute; reflexivity).
  split_and!; [exact H1|exact H2|exact H3|].
  exact (rest_then_cancel three_asks (px 101 1) 400 true H1 H2 H3).
Defined.

(** ** The top of the book *)









(** The opening of the demo in [main]: bids at 99.5 and 99.0, asks at 100.5
    and 101.0. *)
Example demo_top :
  print_top (run [AddLimit (px 199 2) 100 true; AddLimit (px 99 1) 150 true;
                  AddLimit (px 201 2) 80 false; AddLimit (px 101 1) 120 false]
               empty_book)
  = (Some (px 199 2, 100), Some (px 201 2, 80)).
Proof. vm_compute. reflexivity. Qed.

(** ** Time priority across operations *)

Lemma ladder_find_store_ne is_bid k level' m p :
  p ≠ k →
  ladder_find (comp_of is_bid) p (ladder_store (comp_of is_bid) k level' m)
  = ladder_find (comp_of is_bid) p m.
Proof.
  intros Hne. induction m as [|[k' l'] m IH]; cbn [ladder_store ladder_find];
    [done|].
  destruct (key_equiv _ k' k) eqn:E.
  - apply key_equiv_comp_of in E as ->.
    rewrite (key_equiv_ne _ k p) by done.
    destruct level'; [done|]. cbn [ladder_find].
    by rewrite (key_equiv_ne _ k p) by done.
  - cbn [ladder_find]. by rewrite IH.
Qed.

Lemma ladder_find_store_eq is_bid k level' m x :
  NoDup m.*1 →
  ladder_find (comp_of is_bid) k (ladder_store (comp_of is_bid) k level' m)
  = Some x →
  x = level' ∧ is_Some (ladder_find (comp_of is_bid) k m).
Proof.
  induction m as [|[k' l'] m IH]; cbn [ladder_store ladder_find]; [done|].
  rewrite fmap_cons, NoDup_cons. intros [Hk' Hnd].
  destruct (key_equiv _ k' k) eqn:E.
  - apply key_equiv_comp_of in E as ->. destruct level' as [|o level'].
    + intros Hf%ladder_find_elem. exfalso. apply Hk'.
      apply list_elem_of_fmap. by exists (k, x).
    + cbn [ladder_find]. rewrite key_equiv_refl. intros [= <-]. eauto.
  - cbn [ladder_find]. rewrite E. by apply IH.
Qed.

Lemma match_own_side inc is_bid ob :
  ladder_of is_bid (match_ inc is_bid ob).2 = ladder_of is_bid ob.
Proof.
  rewrite match_unfold.
  destruct (match_book _ _ _ _ _ _) as [[[q book'] idx'] ts].
  by destruct is_bid.
Qed.

(** The queue found at a price after matching holds ids that the queue at
    that price held before, in the same order. *)
Lemma match_find_sublist inc side ob is_bid p level' :
  book_wf ob →
  ladder_find (comp_of is_bid) p (ladder_of is_bid (match_ inc side ob).2)
  = Some level' →
  (Order.id <$> level') `sublist_of`
  (Order.id <$> default [] (ladder_find (comp_of is_bid) p
                              (ladder_of is_bid ob))).
Proof.
  intros Hwf Hf. destruct (decide (is_bid = side)) as [->|Hside].
  - rewrite match_own_side in Hf. by rewrite Hf.
  - assert (is_bid = negb side) as -> by (by destruct is_bid, side).
    apply ladder_find_elem in Hf.
    destruct (match_keeps_queue_order inc side ob p level' Hf)
      as (level & Hin & [pre Hsuf]).
    rewrite (ladder_find_wf (negb side) p _ level);
      [|by apply ladder_of_wf|done].
    change (default [] (Some level)) with level.
    rewrite Hsuf. by apply sublist_inserts_l.
Qed.

(** No call ever changes the order of a queue.  In every reachable state
    and for every call, the ids queued at a price on a side after the call
    are ids that were queued there before it, in the same order, followed
    at most by the id of the order the call has just rested. *)
Theorem queue_order_is_kept o ob is_bid p level' :
  reachable ob →
  ladder_find (comp_of is_bid) p (ladder_of is_bid (step o ob)) = Some level' →
  (Order.id <$> level') `sublist_of`
  (Order.id <$> default [] (ladder_find (comp_of is_bid) p
                              (ladder_of is_bid ob))) ++ [next_id ob].
Proof.
  intros Hwf%reachable_wf.
  destruct o as [price qty side|qty side|id|]; cbn [step].
  - unfold add_limit. case_bool_decide as Hq; cbn [snd].
    { intros ->. by apply sublist_inserts_r. }
    pose proof (λ l, match_find_sublist (Order.mk (next_id ob) price qty)
                       side (bump_next_id ob) is_bid p l
                       (bump_next_id_wf _ Hwf)) as Hsub.
    pose proof (match_own_side (Order.mk (next_id ob) price qty) side
                  (bump_next_id ob)) as Hown.
    pose proof (match_wf (Order.mk (next_id ob) price qty) side
                  (bump_next_id ob) (bump_next_id_wf _ Hwf)) as Hm.
    destruct (match_ _ side (bump_next_id ob)) as [inc' ob2].
    destruct Hm as (Hwf2 & _ & _ & _ & Hid & Hp).
    cbn [fst snd Order.id Order.price] in *.
    assert (Hsame : ladder_of is_bid (bump_next_id ob) = ladder_of is_bid ob)
      by (by destruct is_bid).
    rewrite Hsame in Hsub.
    case_bool_decide as Hr; cbn [snd].
    + destruct (decide (is_bid = side)) as [->|Hside].
      * set (ob' := {| bids := _; asks := _; order_index := _;
                       trades := _; next_id := _ |}).
        assert (Hlad : ladder_of side ob'
                       = ladder_push (comp_of side) price inc'
                           (ladder_of side ob2)).
        { unfold ob'. rewrite Hp. by destruct side. }
        rewrite Hlad. destruct (decide (p = price)) as [->|Hne].
        -- rewrite ladder_find_push
             by (by destruct (ladder_of_wf side ob2 Hwf2)).
           intros [= <-]. rewrite fmap_app. cbn [fmap list_fmap]. rewrite Hid.
           apply sublist_app; [|done].
           destruct (ladder_find (comp_of side) price (ladder_of side ob2))
             as [l|] eqn:Ef; [|apply sublist_nil_l].
           by apply Hsub.
        -- rewrite ladder_find_push_ne by done.
           intros Hf. by apply sublist_inserts_r, Hsub.
      * intros Hf. apply sublist_inserts_r, Hsub.
        revert Hf. by destruct is_bid, side.
    + intros Hf. by apply sublist_inserts_r, Hsub.
  - unfold add_market. case_bool_decide as Hq; cbn [snd].
    { intros ->. by apply sublist_inserts_r. }
    pose proof (match_find_sublist
                  (Order.mk (next_id ob) (market_price side) qty) side
                  (bump_next_id ob) is_bid p level'
                  (bump_next_id_wf _ Hwf)) as Hsub.
    destruct (match_ _ side (bump_next_id ob)) as [inc' ob2]. cbn [snd] in *.
    assert (Hsame : ladder_of is_bid (bump_next_id ob) = ladder_of is_bid ob)
      by (by destruct is_bid).
    rewrite Hsame in Hsub.
    intros Hf. by apply sublist_inserts_r, Hsub.
  - rewrite cancel_unfold.
    destruct (order_index ob !! id) as [[price side]|] eqn:El;
      [|cbn [snd]; intros ->; by apply sublist_inserts_r].
    destruct (ladder_find _ price (ladder_of side ob)) as [level|] eqn:Ef;
      [|cbn [snd]; intros Hf;
        change (ladder_of is_bid (erase_index id ob))
          with (ladder_of is_bid ob) in Hf;
        rewrite Hf; by apply sublist_inserts_r].
    destruct (level_scan id level) as [i|] eqn:Es;
      [|cbn [snd]; intros Hf;
        change (ladder_of is_bid (erase_index id ob))
          with (ladder_of is_bid ob) in Hf;
        rewrite Hf; by apply sublist_inserts_r].
    cbn [snd]. destruct (decide (is_bid = side)) as [->|Hside].
    + rewrite ladder_of_set_ladder_eq.
      destruct (decide (p = price)) as [->|Hne].
      * intros [-> _]%ladder_find_store_eq.
        -- rewrite Ef. change (default [] (Some level)) with level.
           apply sublist_inserts_r.
           rewrite list_fmap_delete. apply sublist_delete.
        -- destruct (ladder_of_wf side ob Hwf) as [Hs _].
           by apply (sorted_keys_NoDup side).
      * rewrite ladder_find_store_ne by done.
        change (ladder_of side (erase_index id ob)) with (ladder_of side ob).
        intros ->. by apply sublist_inserts_r.
    + assert (is_bid = negb side) as -> by (by destruct is_bid, side).
      rewrite ladder_of_set_ladder_ne.
      change (ladder_of (negb side) (erase_index id ob))
        with (ladder_of (negb side) ob).
      intros ->. by apply sublist_inserts_r.
  - by destruct is_bid.
Qed.

Lemma queue_order_is_kept_witness :
  reachable (run three_asks empty_book) ∧
  ladder_find (comp_of false) (px 100 1)
    (ladder_of false (step (Cancel 2) (run three_asks empty_book)))
  = Some [Order.mk 1 (px 100 1) 50; Order.mk 3 (px 100 1) 50] ∧
  (Order.id <$> [Order.mk 1 (px 100 1) 50; Order.mk 3 (px 100 1) 50])
    `sublist_of`
  (Order.id <$> default [] (ladder_find (comp_of false) (px 100 1)
                              (ladder_of false (run three_asks empty_book))))
    ++ [next_id (run three_asks empty_book)].
Proof.
  assert (Hr : reachable (run three_asks empty_book)) by (by eexists).
  assert (Hf : ladder_find (comp_of false) (px 100 1)
                 (ladder_of false (step (Cancel 2) (run three_asks empty_book)))
               = Some [Order.mk 1 (px 100 1) 50; Order.mk 3 (px 100 1) 50])
    by (vm_compute; reflexivity).
  split; [exact Hr|]. split; [exact Hf|].
  exact (queue_order_is_kept (Cancel 2) _ false (px 100 1) _ Hr Hf).
Defined.

(** ** The return value 0 *)

(** Until the id counter wraps around, [add_limit] and [add_market] return
    0 exactly when they reject the order for its quantity: an accepted
    order is never given the id 0. *)
Theorem zero_id_means_rejected ops price qty is_bid :
  Z.of_nat (length ops) < UINT64_MOD - 1 →
  ((add_limit price qty is_bid (run ops empty_book)).1 = 0 ↔ qty ≤ 0) ∧
  ((add_market qty is_bid (run ops empty_book)).1 = 0 ↔ qty ≤ 0).
Proof.
  intros Hlen.
  destruct (run_issue ops empty_book) as (Hb & _ & _); [cbn; lia..|].
  change (next_id empty_book) with 1 in Hb.
  destruct (decide (0 < qty)) as [Hq|Hq].
  - destruct (add_limit_issue price qty is_bid (run ops empty_book) Hq)
      as [-> _].
    destruct (add_market_issue qty is_bid (run ops empty_book) Hq) as [-> _].
    split; split; lia.
  - unfold add_limit, add_market. rewrite !bool_decide_eq_true_2 by lia.
    cbn [fst]. split; split; lia.
Qed.

Lemma zero_id_means_rejected_witness :
  Z.of_nat (length mixed_run) < UINT64_MOD - 1 ∧
  ((add_limit (px 100 1) 0 true (run mixed_run empty_book)).1 = 0 ↔ 0 ≤ 0) ∧
  ((add_market 0 true (run mixed_run empty_book)).1 = 0 ↔ 0 ≤ 0).
Proof.
  assert (H : Z.of_nat (length mixed_run) < UINT64_MOD - 1)
    by (vm_compute; reflexivity).
  split; [exact H|].
  exact (zero_id_means_rejected mixed_run (px 100 1) 0 true H).
Defined.
